(** * librestd: request routing and connection dispatch (src/http_server.cpp)

    A shallow embedding of [http_route] (pattern compilation and matching),
    [http_consumer::route] and [http_consumer::consume].  Of [<regex>]
    (ECMAScript grammar, [icase]) a fragment is embedded with it, which
    holds the token parser of the router and the usual route patterns;
    what the library does with any other pattern is a parameter, as are
    the handlers, the request parser and the connections. *)

From Stdlib Require Import Ascii String ZArith Lia Bool.
From stdpp Require Import base option list strings gmap.

Local Open Scope Z_scope.
Local Open Scope nat_scope.

(** ** Characters *)

Module chars.

Definition code (c : ascii) : nat := nat_of_ascii c.

Definition in_range (lo hi c : ascii) : bool :=
  (code lo <=? code c) && (code c <=? code hi).

Definition is_upper (c : ascii) : bool := in_range "A" "Z" c.
Definition is_lower (c : ascii) : bool := in_range "a" "z" c.
Definition is_digit (c : ascii) : bool := in_range "0" "9" c.
Definition is_alpha (c : ascii) : bool := is_upper c || is_lower c.
Definition is_alnum (c : ascii) : bool := is_alpha c || is_digit c.

(** [std::tolower] and [std::toupper] in the "C" locale. *)
Definition tolower (c : ascii) : ascii :=
  if is_upper c then ascii_of_nat (code c + 32) else c.
Definition toupper (c : ascii) : ascii :=
  if is_lower c then ascii_of_nat (code c - 32) else c.

Definition eqb (c d : ascii) : bool := Ascii.eqb c d.

Definition is_space (c : ascii) : bool :=
  match code c with
  | 9 | 10 | 11 | 12 | 13 | 32 => true
  | _ => false
  end.

Definition is_word (c : ascii) : bool := is_alnum c || eqb c "_".

Definition is_line_terminator (c : ascii) : bool :=
  match code c with
  | 10 | 13 => true
  | _ => false
  end.

End chars.

(** ** Strings as [std::string] *)

Module str.

Fixpoint take (n : nat) (s : string) : string :=
  match n, s with
  | S n', String c s' => String c (take n' s')
  | _, _ => EmptyString
  end.

Fixpoint drop (n : nat) (s : string) : string :=
  match n, s with
  | S n', String _ s' => drop n' s'
  | _, _ => s
  end.

(** [std::string::compare(0, from.size(), from) == 0] at the current
    position. *)
Fixpoint starts_with (p s : string) : bool :=
  match p, s with
  | EmptyString, _ => true
  | String a p', String b s' => Ascii.eqb a b && starts_with p' s'
  | String _ _, EmptyString => false
  end.

(** The bytes before the first zero byte, if there is one. *)
Fixpoint until_nul (s : string) : option string :=
  match s with
  | EmptyString => None
  | String c s' =>
      if Ascii.eqb c "000" then Some EmptyString
      else option_map (String c) (until_nul s')
  end.

End str.

(** A predicate on every character of a text. *)
Fixpoint all_chars (p : ascii → bool) (s : string) : bool :=
  match s with
  | EmptyString => true
  | String c s' => p c && all_chars p s'
  end.

(** ** [<regex>]: the part of the library the router is followed through

    Grammar (ECMAScript): alternation, concatenation, the quantifiers [*],
    [+], [?] and [{n}], [{n,}], [{n,m}], greedy or (followed by [?]) lazy,
    capturing and [(?:...)] groups, [.], bracket expressions with ranges
    and negation, the class escapes [\d \w \s] and their complements, the
    control escapes [\t \n \r \f \v], identity escapes of punctuation, and
    the anchors [^] and [$].  [compile] answers
    for the patterns of this fragment; for any other text it returns [None]
    and the library's own answer is taken as a parameter ([construct]):
    [std::regex] may throw [std::regex_error] for it or build a matcher
    that the model does not look into. *)

Module std_regex.

Inductive cls := Digit | Word | Space.

Inductive class_item :=
| CChar (c : ascii)
| CRange (lo hi : ascii)
| CCls (k : cls) (negated : bool).

(** What a matcher built outside the fragment answers for one attempt:
    given the offset of the attempt and the text from there on, the number
    of characters the match takes and the groups 1, 2, ... *)
Definition foreign : Type := nat → string → option (nat * list (option string)).

Inductive regex :=
| REmpty
| RChar (c : ascii)
| RAny
| RClass (negated : bool) (items : list class_item)
| RBol
| REol
| RSeq (r1 r2 : regex)
| RAlt (r1 r2 : regex)
| RStar (r : regex)
| RLazyStar (r : regex)
| RGroup (i : nat) (r : regex)
| RForeign (f : foreign).

(** *** Lexer *)

(** The characters the grammar gives a meaning of their own. *)
Inductive kind :=
| KBackslash | KLBracket | KRBracket | KLParen | KRParen | KLBrace | KRBrace
| KBar | KStar | KPlus | KQuest | KCaret | KDollar | KDot | KDash | KColon
| KEquals | KComma | KDigit | KOther.

Definition kind_of (c : ascii) : kind :=
  match c with
  | "\" => KBackslash
  | "[" => KLBracket
  | "]" => KRBracket
  | "(" => KLParen
  | ")" => KRParen
  | "{" => KLBrace
  | "}" => KRBrace
  | "|" => KBar
  | "*" => KStar
  | "+" => KPlus
  | "?" => KQuest
  | "^" => KCaret
  | "$" => KDollar
  | "." => KDot
  | "-" => KDash
  | ":" => KColon
  | "=" => KEquals
  | "," => KComma
  | "0" | "1" | "2" | "3" | "4" | "5" | "6" | "7" | "8" | "9" => KDigit
  | _ => KOther
  end%char.

Inductive token :=
| TAtom (r : regex)        (* an ordinary character, [.], a class *)
| TAssert (r : regex)      (* [^] or [$] *)
| TOpen (capturing : bool)
| TClose
| TBar
| TStar (lazy : bool)
| TPlus (lazy : bool)
| TQuest (lazy : bool)
| TRepeat (lo : nat) (hi : option nat) (lazy : bool).  (* no [hi]: no bound *)

Inductive lexmode :=
| LNormal
| LClass (negated : bool) (items : list class_item)
| LMin (n : option nat)               (* after a brace: the count, so far *)
| LMax (lo : nat) (n : option nat).   (* after the comma: the bound, so far *)

Definition cls_escape (c : ascii) : option class_item :=
  match c with
  | "d" => Some (CCls Digit false)
  | "D" => Some (CCls Digit true)
  | "w" => Some (CCls Word false)
  | "W" => Some (CCls Word true)
  | "s" => Some (CCls Space false)
  | "S" => Some (CCls Space true)
  | _ => None
  end%char.

Definition ctl_escape (c : ascii) : option ascii :=
  match c with
  | "t" => Some "009"
  | "n" => Some "010"
  | "v" => Some "011"
  | "f" => Some "012"
  | "r" => Some "013"
  | _ => None
  end%char.

(** The character after a backslash, as one bracket item. *)
Definition escape_item (c : ascii) : option class_item :=
  match cls_escape c with
  | Some it => Some it
  | None =>
      match ctl_escape c with
      | Some d => Some (CChar d)
      | None => if chars.is_alnum c then None else Some (CChar c)
      end
  end.

Definition escape_atom (c : ascii) : option regex :=
  match escape_item c with
  | Some (CChar d) => Some (RChar d)
  | Some it => Some (RClass false [it])
  | None => None
  end.

(** Inside a bracket expression: a [-] that is not the last character
    comes next, so what stands before it opens a range. *)
Definition opens_range (s : string) : bool :=
  match s with
  | String d (String e _) =>
      match kind_of d, kind_of e with
      | KDash, KRBracket => false
      | KDash, _ => true
      | _, _ => false
      end
  | _ => false
  end.

(** One more digit of a count; counts above 99 are left to the library. *)
Definition more_digits (n : option nat) (c : ascii) : option nat :=
  let m := 10 * default 0 n + (chars.code c - 48) in
  if m <=? 99 then Some m else None.

(** [None]: the text is not in the fragment.  A quantifier put on a
    quantifier, the lookahead groups, escapes of letters and digits other
    than the ones above, bracket expressions with a [[] inside and ranges
    that start or end with an escape are left to the library. *)
Fixpoint lex (mode : lexmode) (s : string) {struct s} : option (list token) :=
  match mode, s with
  | LNormal, EmptyString => Some []
  | LNormal, String c s' =>
      match kind_of c with
      | KBackslash =>
          match s' with
          | String d s'' =>
              a ← escape_atom d; ts ← lex LNormal s''; Some (TAtom a :: ts)
          | EmptyString => None
          end
      | KLBracket =>
          match s' with
          | String d s'' =>
              match kind_of d with
              | KCaret => lex (LClass true []) s''
              | _ => lex (LClass false []) s'
              end
          | EmptyString => None
          end
      | KLParen =>
          match s' with
          | String d s'' =>
              match kind_of d with
              | KQuest =>
                  match s'' with
                  | String e s''' =>
                      match kind_of e with
                      | KColon =>
                          ts ← lex LNormal s'''; Some (TOpen false :: ts)
                      | _ => None
                      end
                  | EmptyString => None
                  end
              | _ => ts ← lex LNormal s'; Some (TOpen true :: ts)
              end
          | EmptyString => Some [TOpen true]
          end
      | KRParen => ts ← lex LNormal s'; Some (TClose :: ts)
      | KBar => ts ← lex LNormal s'; Some (TBar :: ts)
      | KStar =>
          match s' with
          | String q s'' =>
              match kind_of q with
              | KQuest => ts ← lex LNormal s''; Some (TStar true :: ts)
              | _ => ts ← lex LNormal s'; Some (TStar false :: ts)
              end
          | EmptyString => Some [TStar false]
          end
      | KPlus =>
          match s' with
          | String q s'' =>
              match kind_of q with
              | KQuest => ts ← lex LNormal s''; Some (TPlus true :: ts)
              | _ => ts ← lex LNormal s'; Some (TPlus false :: ts)
              end
          | EmptyString => Some [TPlus false]
          end
      | KQuest =>
          match s' with
          | String q s'' =>
              match kind_of q with
              | KQuest => ts ← lex LNormal s''; Some (TQuest true :: ts)
              | _ => ts ← lex LNormal s'; Some (TQuest false :: ts)
              end
          | EmptyString => Some [TQuest false]
          end
      | KCaret => ts ← lex LNormal s'; Some (TAssert RBol :: ts)
      | KDollar => ts ← lex LNormal s'; Some (TAssert REol :: ts)
      | KDot => ts ← lex LNormal s'; Some (TAtom RAny :: ts)
      | KLBrace => lex (LMin None) s'
      | KRBrace | KRBracket | KDash | KColon | KEquals | KComma | KDigit
      | KOther =>
          ts ← lex LNormal s'; Some (TAtom (RChar c) :: ts)
      end
  | LClass _ _, EmptyString => None
  | LClass neg items, String c s' =>
      match kind_of c with
      | KRBracket =>
          ts ← lex LNormal s'; Some (TAtom (RClass neg (rev items)) :: ts)
      | KBackslash =>
          match s' with
          | String d s'' =>
              it ← escape_item d;
              if opens_range s'' then None
              else lex (LClass neg (it :: items)) s''
          | EmptyString => None
          end
      | KLBracket => None
      | _ =>
          match s' with
          | String d (String e s''') =>
              match kind_of d, kind_of e with
              | KDash, KRBracket =>
                  ts ← lex LNormal s''';
                  Some (TAtom (RClass neg (rev (CChar "-" :: CChar c :: items)))
                        :: ts)
              | KDash, (KBackslash | KLBracket) => None
              | KDash, _ =>
                  if chars.code c <=? chars.code e
                  then lex (LClass neg (CRange c e :: items)) s'''
                  else None
              | _, _ => lex (LClass neg (CChar c :: items)) s'
              end
          | _ => lex (LClass neg (CChar c :: items)) s'
          end
      end
  | LMin _, EmptyString => None
  | LMin n, String c s' =>
      match kind_of c, n with
      | KDigit, _ => m ← more_digits n c; lex (LMin (Some m)) s'
      | KComma, Some lo => lex (LMax lo None) s'
      | KRBrace, Some lo =>
          match s' with
          | String q s'' =>
              match kind_of q with
              | KQuest =>
                  ts ← lex LNormal s''; Some (TRepeat lo (Some lo) true :: ts)
              | _ =>
                  ts ← lex LNormal s'; Some (TRepeat lo (Some lo) false :: ts)
              end
          | EmptyString => Some [TRepeat lo (Some lo) false]
          end
      | _, _ => None
      end
  | LMax _ _, EmptyString => None
  | LMax lo n, String c s' =>
      match kind_of c with
      | KDigit => m ← more_digits n c; lex (LMax lo (Some m)) s'
      | KRBrace =>
          if default lo n <? lo then None
          else
            match s' with
            | String q s'' =>
                match kind_of q with
                | KQuest => ts ← lex LNormal s''; Some (TRepeat lo n true :: ts)
                | _ => ts ← lex LNormal s'; Some (TRepeat lo n false :: ts)
                end
            | EmptyString => Some [TRepeat lo n false]
            end
      | _ => None
      end
  end.

(** *** Parser: one pass over the tokens with a stack of open groups *)

Record frame := Frame {
  f_group : option nat;   (* [Some i]: the i-th capturing group *)
  f_alts : list regex;    (* finished alternatives, latest first *)
  f_seq : list regex;     (* terms of the current alternative, latest first *)
  f_quant : bool          (* the latest term may take a quantifier *)
}.

Definition seq_of (terms : list regex) : regex :=
  match terms with
  | [] => REmpty
  | t :: ts => foldl (fun acc r => RSeq r acc) t ts
  end.

Definition alt_of (f : frame) : regex :=
  foldl (fun acc r => RAlt r acc) (seq_of (f_seq f)) (f_alts f).

Definition close_frame (f : frame) : regex :=
  match f_group f with
  | Some i => RGroup i (alt_of f)
  | None => alt_of f
  end.

Definition push_term (quant : bool) (r : regex) (f : frame) : frame :=
  Frame (f_group f) (f_alts f) (r :: f_seq f) quant.

Definition quantify (q : regex -> regex) (f : frame) : option frame :=
  match f_quant f, f_seq f with
  | true, t :: ts => Some (Frame (f_group f) (f_alts f) (q t :: ts) false)
  | _, _ => None
  end.

(** The quantifiers; a lazy one tries to go on before it tries its
    operand. *)
Definition star (lazy : bool) (r : regex) : regex :=
  if lazy then RLazyStar r else RStar r.
Definition plus (lazy : bool) (r : regex) : regex := RSeq r (star lazy r).
Definition opt (lazy : bool) (r : regex) : regex :=
  if lazy then RAlt REmpty r else RAlt r REmpty.

(** [r{lo}], [r{lo,}] and [r{lo,hi}]: [lo] copies of [r], and then any
    number of copies, or at most [hi - lo] of them, each one optional
    after the one before. *)
Fixpoint times (n : nat) (r tail : regex) : regex :=
  match n with
  | 0 => tail
  | S n' => RSeq r (times n' r tail)
  end.

Fixpoint upto (n : nat) (lazy : bool) (r : regex) : regex :=
  match n with
  | 0 => REmpty
  | S n' => opt lazy (RSeq r (upto n' lazy r))
  end.

Definition repeat (lo : nat) (hi : option nat) (lazy : bool) (r : regex)
    : regex :=
  times lo r
    match hi with
    | None => star lazy r
    | Some m => upto (m - lo) lazy r
    end.

(** [next] is the number of capturing groups opened so far. *)
Fixpoint parse (ts : list token) (top : frame) (stack : list frame)
    (next : nat) : option (regex * nat) :=
  match ts with
  | [] =>
      match stack with
      | [] => Some (close_frame top, next)
      | _ :: _ => None
      end
  | t :: ts' =>
      match t with
      | TAtom r => parse ts' (push_term true r top) stack next
      | TAssert r => parse ts' (push_term false r top) stack next
      | TOpen true =>
          parse ts' (Frame (Some (S next)) [] [] false) (top :: stack) (S next)
      | TOpen false =>
          parse ts' (Frame None [] [] false) (top :: stack) next
      | TClose =>
          match stack with
          | [] => None
          | parent :: stack' =>
              parse ts' (push_term true (close_frame top) parent) stack' next
          end
      | TBar =>
          parse ts'
            (Frame (f_group top) (seq_of (f_seq top) :: f_alts top) [] false)
            stack next
      | TStar lazy => f ← quantify (star lazy) top; parse ts' f stack next
      | TPlus lazy => f ← quantify (plus lazy) top; parse ts' f stack next
      | TQuest lazy => f ← quantify (opt lazy) top; parse ts' f stack next
      | TRepeat lo hi lazy =>
          f ← quantify (repeat lo hi lazy) top; parse ts' f stack next
      end
  end.

(** A pattern that can match the empty text. *)
Fixpoint nullable (r : regex) : bool :=
  match r with
  | REmpty | RBol | REol | RStar _ | RLazyStar _ => true
  | RChar _ | RAny | RClass _ _ | RForeign _ => false
  | RSeq r1 r2 => nullable r1 && nullable r2
  | RAlt r1 r2 => nullable r1 || nullable r2
  | RGroup _ r' => nullable r'
  end.

(** No repetition of a pattern that can match the empty text: for those
    the library has a rule of its own on when the repetition stops. *)
Fixpoint star_safe (r : regex) : bool :=
  match r with
  | RStar r' | RLazyStar r' => negb (nullable r') && star_safe r'
  | RSeq r1 r2 | RAlt r1 r2 => star_safe r1 && star_safe r2
  | RGroup _ r' => star_safe r'
  | _ => true
  end.

Fixpoint weight (r : regex) : nat :=
  match r with
  | RSeq r1 r2 | RAlt r1 r2 => S (weight r1 + weight r2)
  | RStar r' | RLazyStar r' | RGroup _ r' => S (weight r')
  | _ => 1
  end.

Definition printable (c : ascii) : bool :=
  (32 <=? chars.code c) && (chars.code c <? 127).

(** A compiled [std::regex]: the pattern, the [icase] flag and
    [mark_count()]. *)
Record t := Regex {
  ast : regex;
  icase : bool;
  mark_count : nat
}.

(** The fragment: a pattern of printable characters that the lexer and
    the parser accept, that repeats without bound nothing that can be
    empty, and that is of moderate size once its counted repetitions are
    written out (the library sets a limit of its own to that). *)
Definition compile (pattern : string) (icase : bool) : option t :=
  if all_chars printable pattern then
    ts ← lex LNormal pattern;
    '(r, n) ← parse ts (Frame None [] [] false) [] 0;
    if star_safe r && (weight r <=? 2000)
    then Some (Regex r icase n)
    else None
  else None.

(** A default-constructed [std::regex] matches nothing and has no
    groups. *)
Definition empty : t := Regex (RClass false []) false 0.

(** *** The capturing parentheses of a pattern, read off its text

    [mark_count()] of any pattern the library accepts: the parentheses
    that open a group, which are those not escaped, not inside a bracket
    expression and not followed by [?]. *)

Inductive pstate :=
| PNormal
| POpen                 (* a parenthesis was just read *)
| PEscape (b : bool)    (* a backslash was just read; [b]: inside brackets *)
| PControl (b : bool)   (* [\c] was just read *)
| PBracket
| PBracketOpen          (* inside brackets, a [[] was just read *)
| PName (k : kind)      (* inside [[: :]], [[. .]] or [[= =]] *)
| PNameEnd.

Definition kind_eqb (k1 k2 : kind) : bool :=
  match k1, k2 with
  | KDot, KDot | KColon, KColon | KEquals, KEquals => true
  | _, _ => false
  end.

Definition pstep_normal (c : ascii) : pstate :=
  match kind_of c with
  | KBackslash => PEscape false
  | KLBracket => PBracket
  | KLParen => POpen
  | _ => PNormal
  end.

Definition pstep_bracket (c : ascii) : pstate :=
  match kind_of c with
  | KRBracket => PNormal
  | KBackslash => PEscape true
  | KLBracket => PBracketOpen
  | _ => PBracket
  end.

Definition pafter (b : bool) : pstate := if b then PBracket else PNormal.

(** One character: the state after it, and whether the parenthesis read
    before it turned out to open a group. *)
Definition pstep (q : pstate) (c : ascii) : pstate * nat :=
  match q with
  | PNormal => (pstep_normal c, 0)
  | POpen =>
      match kind_of c with
      | KQuest => (PNormal, 0)
      | _ => (pstep_normal c, 1)
      end
  | PEscape b => if Ascii.eqb c "c" then (PControl b, 0) else (pafter b, 0)
  | PControl b => (pafter b, 0)
  | PBracket => (pstep_bracket c, 0)
  | PBracketOpen =>
      match kind_of c with
      | KDot | KColon | KEquals => (PName (kind_of c), 0)
      | _ => (pstep_bracket c, 0)
      end
  | PName k => (if kind_eqb (kind_of c) k then PNameEnd else PName k, 0)
  | PNameEnd => (PBracket, 0)
  end.

Fixpoint opens_from (q : pstate) (s : string) : nat :=
  match s with
  | EmptyString => match q with POpen => 1 | _ => 0 end
  | String c s' => (pstep q c).2 + opens_from (pstep q c).1 s'
  end.

Definition capture_opens (pattern : string) : nat := opens_from PNormal pattern.

(** [std::regex( pattern, flags )]: the fragment is compiled here; for
    any other pattern [library] says what the constructor does, throw
    [std::regex_error] (its [code()] and [what()]) or build a matcher. *)
Definition construct (library : string → bool → (Z * string) + foreign)
    (pattern : string) (icase : bool) : (Z * string) + t :=
  match compile pattern icase with
  | Some re => inr re
  | None =>
      match library pattern icase with
      | inl diagnostic => inl diagnostic
      | inr f => inr (Regex (RForeign f) icase (capture_opens pattern))
      end
  end.

(** *** Matcher: backtracking with continuations *)

Definition cls_has (k : cls) (c : ascii) : bool :=
  match k with
  | Digit => chars.is_digit c
  | Word => chars.is_word c
  | Space => chars.is_space c
  end.

Definition char_eq (icase : bool) (c d : ascii) : bool :=
  if icase then chars.eqb (chars.tolower c) (chars.tolower d)
  else chars.eqb c d.

Definition item_has (icase : bool) (it : class_item) (c : ascii) : bool :=
  match it with
  | CChar d => char_eq icase d c
  | CRange lo hi =>
      if icase
      then chars.in_range lo hi (chars.tolower c)
           || chars.in_range lo hi (chars.toupper c)
      else chars.in_range lo hi c
  | CCls k neg => xorb neg (cls_has k c)
  end.

Definition class_has (icase : bool) (neg : bool) (items : list class_item)
    (c : ascii) : bool :=
  xorb neg (existsb (fun it => item_has icase it c) items).

(** [sub_match]: [None] is an unmatched group. *)
Abbreviation captures := (list (option string)).

(** The groups a foreign matcher reports, put in their slots; slot 0 is
    the whole match and is filled by the search. *)
Definition overlay (groups : captures) (caps : captures) : captures :=
  imap (fun i old =>
          match i with
          | 0 => old
          | S j => default None (groups !! j)
          end) caps.

Section matcher.
Context {R : Type} (ic : bool).

(** The continuation receives the position reached, the input that
    remains and the captures so far. *)
Definition cont := nat -> string -> captures -> option R.

(** Greedy iteration of [body], at most [n] more turns; a turn that
    consumes nothing is refused ([compile] admits a repetition only of
    what cannot be empty, so this never decides a search). *)
Fixpoint star_loop (body : nat -> string -> captures -> cont -> option R)
    (k : cont) (n : nat) (pos : nat) (s : string) (caps : captures)
    : option R :=
  match n with
  | 0 => k pos s caps
  | S n' =>
      match
        body pos s caps (fun pos' s' caps' =>
          if String.length s' <? String.length s
          then star_loop body k n' pos' s' caps'
          else None)
      with
      | Some x => Some x
      | None => k pos s caps
      end
  end.

(** The same, lazily: going on is tried before another turn. *)
Fixpoint lazy_loop (body : nat -> string -> captures -> cont -> option R)
    (k : cont) (n : nat) (pos : nat) (s : string) (caps : captures)
    : option R :=
  match k pos s caps with
  | Some x => Some x
  | None =>
      match n with
      | 0 => None
      | S n' =>
          body pos s caps (fun pos' s' caps' =>
            if String.length s' <? String.length s
            then lazy_loop body k n' pos' s' caps'
            else None)
      end
  end.

Fixpoint run (r : regex) (pos : nat) (s : string) (caps : captures)
    (k : cont) {struct r} : option R :=
  match r with
  | REmpty => k pos s caps
  | RChar c =>
      match s with
      | String d s' => if char_eq ic c d then k (S pos) s' caps else None
      | EmptyString => None
      end
  | RAny =>
      match s with
      | String d s' =>
          if chars.is_line_terminator d then None else k (S pos) s' caps
      | EmptyString => None
      end
  | RClass neg items =>
      match s with
      | String d s' =>
          if class_has ic neg items d then k (S pos) s' caps else None
      | EmptyString => None
      end
  | RBol => if pos =? 0 then k pos s caps else None
  | REol => match s with EmptyString => k pos s caps | _ => None end
  | RSeq r1 r2 =>
      run r1 pos s caps (fun pos' s' caps' => run r2 pos' s' caps' k)
  | RAlt r1 r2 =>
      match run r1 pos s caps k with
      | Some x => Some x
      | None => run r2 pos s caps k
      end
  | RStar r' => star_loop (run r') k (String.length s) pos s caps
  | RLazyStar r' => lazy_loop (run r') k (String.length s) pos s caps
  | RGroup i r' =>
      run r' pos s caps (fun pos' s' caps' =>
        k pos' s'
          (<[i := Some (str.take (String.length s - String.length s') s)]>
             caps'))
  | RForeign f =>
      match f pos s with
      | Some (n, groups) =>
          if n <=? String.length s
          then k (pos + n) (str.drop n s) (overlay groups caps)
          else None
      | None => None
      end
  end.
End matcher.

(** [std::match_results]: [size()] is the length of [subs]; an empty
    list is the state after a failed search. *)
Record smatch := Smatch {
  prefix : string;
  subs : captures;
  suffix : string
}.

Definition no_match : smatch := Smatch EmptyString [] EmptyString.

Definition size (m : smatch) : nat := length (subs m).

(** [m[i].str()] *)
Definition sub (m : smatch) (i : nat) : string :=
  match subs m !! i with
  | Some (Some x) => x
  | _ => EmptyString
  end.

(** One attempt at a fixed start: on success, what is left unread and
    the groups. *)
Definition match_here (re : t) (pos : nat) (s : string)
    : option (string * captures) :=
  run (icase re) (ast re) pos s (replicate (S (mark_count re)) None)
    (fun _ rest caps => Some (rest, caps)).

(** [std::regex_search]: the leftmost start at which an attempt
    succeeds; [before] is the text already skipped. *)
Fixpoint search_from (re : t) (pos : nat) (before : string) (s : string)
    : bool * smatch :=
  match match_here re pos s with
  | Some (rest, caps) =>
      let whole := str.take (String.length s - String.length rest) s in
      (true, Smatch before (<[0 := Some whole]> caps) rest)
  | None =>
      match s with
      | EmptyString => (false, no_match)
      | String c s' =>
          search_from re (S pos) (before +:+ String c EmptyString) s'
      end
  end.

Definition regex_search (s : string) (re : t) : bool * smatch :=
  search_from re 0 EmptyString s.

End std_regex.

(** ** [strings::replace] *)

Module strings.

(** [skip] characters of the occurrence being replaced are still to be
    dropped. *)
Fixpoint replace_from (skip : nat) (s from to : string) : string :=
  match s with
  | EmptyString => EmptyString
  | String c s' =>
      match skip with
      | S n => replace_from n s' from to
      | 0 =>
          if str.starts_with from s
          then to +:+ replace_from (String.length from - 1) s' from to
          else String c (replace_from 0 s' from to)
      end
  end.

(** Modelled from the spec: [strings::replace(str, from, to)] is declared
    in strings.h and defined outside http_server.cpp; the route compiler
    uses it to "rewrite the token in place to a capturing group".  Every
    occurrence of [from] in [str] is rewritten, left to right, and an empty
    [from] leaves [str] alone. *)
Definition replace (s from to : string) : string :=
  match from with
  | EmptyString => s
  | String _ _ => replace_from 0 s from to
  end.

End strings.

(** ** Logging, exceptions and the effect monad *)

Inductive level := DEBUG | INFO | WARNING | ERROR.

(** A printf argument. *)
Inductive log_arg :=
| AStr (s : string)
| AInt (n : Z).

(** Modelled from the spec: the Method enumeration is declared in
    http_request.h, outside http_server.cpp; the spec gives it as
    GET/POST/.../ANY. *)
Inductive Method := ANY | GET | POST | OTHER (verb : string).

Global Instance Method_eq_dec : EqDecision Method.
Proof. solve_decision. Defined.

(** Modelled from the spec: [http_request] is declared in http_request.h,
    outside http_server.cpp: "method, path, headers, body, and a mapping
    from parameter name to captured value". *)
Module http_request.
Record t := Build {
  method : Method;
  path : string;
  headers : gmap string string;
  body : string;
  parameters : gmap string string
}.

Definition set_parameters (ps : gmap string string) (req : t) : t :=
  Build (method req) (path req) (headers req) (body req) ps.
End http_request.

(** Modelled from the spec: [http_response] is declared in
    http_response.h, outside http_server.cpp: "status, headers, body
    accumulator". *)
Module http_response.
Record t := Build {
  status : Z;
  headers : gmap string string;
  body : string
}.
End http_response.

Inductive exn :=
| regex_error (code : Z) (what : string)
| other_exception (what : string).

(** How a call ends: it returns, an exception leaves it, it never
    returns, or it has done something the language gives no meaning to
    (here: read past the end of an array). *)
Inductive outcome (A : Type) :=
| Ret (a : A)
| Throw (e : exn)
| Diverge
| Undefined.
Arguments Ret {A} a.
Arguments Throw {A} e.
Arguments Diverge {A}.
Arguments Undefined {A}.

(** What a run leaves behind, in order. *)
Inductive event :=
| Log (lvl : level) (fmt : string) (args : list log_arg)
| Call (controller handler : nat) (req : http_request.t)
| Receive (max : nat) (read : Z)
| Send (data : string) (sent : Z).

Definition trace := list event.

Definition M (A : Type) : Type := trace -> outcome A * trace.

Global Instance M_ret : MRet M := fun A a tr => (Ret a, tr).

Global Instance M_bind : MBind M := fun A B f m tr =>
  match m tr with
  | (Ret a, tr') => f a tr'
  | (Throw e, tr') => (Throw e, tr')
  | (Diverge, tr') => (Diverge, tr')
  | (Undefined, tr') => (Undefined, tr')
  end.

Definition emit_all (es : list event) : M unit := fun tr => (Ret tt, tr ++ es).

Definition emit (e : event) : M unit := emit_all [e].

Definition log (lvl : level) (fmt : string) (args : list log_arg) : M unit :=
  emit (Log lvl fmt args).

Definition throw {A} (e : exn) : M A := fun tr => (Throw e, tr).

Definition diverge {A} : M A := fun tr => (Diverge, tr).

Definition undefined {A} : M A := fun tr => (Undefined, tr).

(** A call into code of which only the outcome is known. *)
Definition outside {A} (o : outcome A) : M A := fun tr => (o, tr).

(** [try { body } catch (const std::regex_error& e) { handler }] *)
Definition try_catch_regex_error {A} (body : M A)
    (handler : Z -> string -> M A) : M A := fun tr =>
  match body tr with
  | (Throw (regex_error code what), tr') => handler code what tr'
  | r => r
  end.

(** ** Collaborators *)

(** What the routing core takes from the rest of the library and from the
    application: controllers and their handlers, the request parser, the
    response object. *)
Class Collaborators := {
  (** [(controller->*handler)(req, resp)]: the handler is application
      code; it may return, having written to the request and the response,
      throw, or not return *)
  invoke : nat -> nat -> http_request.t -> http_response.t ->
           outcome (http_request.t * http_response.t);
  (** the name [typeid] gives for the object behind [controller] *)
  type_name : nat -> string;
  (** [http_request::parse(request, buffer, size)] *)
  parse : http_request.t -> string -> Z -> outcome (bool * http_request.t);
  (** what the constructor of [std::regex] does with a pattern outside
      the fragment of [std_regex.compile] *)
  regex_library : string -> bool -> (Z * string) + std_regex.foreign;
  (** [http_request::max_size] *)
  max_size : nat;
  (** [request.method_name()] *)
  method_name : http_request.t -> string;
  (** a default-constructed [http_request] and [http_response] *)
  new_request : http_request.t;
  new_response : http_response.t;
  (** [response.not_found()] *)
  not_found : http_response.t -> http_response.t;
  (** [response.str()] *)
  response_str : http_response.t -> string
}.

(** [tcp_stream]: what the peer of one accepted connection does. *)
Record tcp_stream := {
  peer_address : string;
  peer_port : Z;
  (** [receive(buffer, max)]: the count returned and what the call has
      written to the buffer, from its first byte on *)
  receive : nat -> Z * string;
  (** [send(buffer, len)]: the count returned *)
  send : string -> Z
}.

(** ** [http_route] *)

Definition NAMED_PARAM_PARSER_pattern : string := ":([_a-z0-9]+)\(([^\)]*)\)".

(** The static [NAMED_PARAM_PARSER], compiled with [icase]. *)
Definition NAMED_PARAM_PARSER : std_regex.t :=
  default std_regex.empty (std_regex.compile NAMED_PARAM_PARSER_pattern true).

Module http_route.

Record t := Build {
  is_re : bool;
  method : Method;
  path : string;
  controller : nat;
  handler : nat;
  names : list string;
  re : std_regex.t
}.

(** The members the [while] loop of the constructor updates, and its
    log lines. *)
Record scan_state := Scan {
  scan_is_re : bool;
  scan_path : string;
  scan_names : list string;
  scan_log : list event
}.

(** [for( int i = 0; i < m.size(); ++i ) log( DEBUG, "  m[%d] = '%s'", ... )] *)
Definition log_groups (m : std_regex.smatch) : list event :=
  map (fun i => Log DEBUG "  m[%d] = '%s'"
                  [AInt (Z.of_nat i); AStr (std_regex.sub m i)])
      (seq 0 (std_regex.size m)).

(** One turn of the body of the [while] loop. *)
Definition scan_step (tmp : string) (m : std_regex.smatch)
    (st : scan_state) : scan_state :=
  let tok := std_regex.sub m 0 in
  let name := std_regex.sub m 1 in
  let expr := std_regex.sub m 2 in
  Scan true
       (strings.replace (scan_path st) tok ("(" +:+ expr +:+ ")"))
       (scan_names st ++ [name])
       (scan_log st
          ++ Log DEBUG "Found named parameter in '%s':" [AStr tmp]
          :: log_groups m).

(** The [while] loop; [None] when [fuel] turns do not reach its end. *)
Fixpoint scan (fuel : nat) (tmp : string) (st : scan_state)
    : option scan_state :=
  match fuel with
  | 0 => None
  | S fuel' =>
      let '(found, m) := std_regex.regex_search tmp NAMED_PARAM_PARSER in
      if found && (std_regex.size m =? 3)
      then scan fuel' (std_regex.suffix m) (scan_step tmp m st)
      else Some st
  end.

Section constructor.
Context `{Collaborators}.

(** The constructor.  The loop is given one turn more than [path] has
    characters. *)
Definition http_route (path : string) (controller handler : nat)
    (method : Method) : M t :=
  match scan (S (String.length path)) path (Scan false path [] []) with
  | None => diverge
  | Some st =>
      _ ← emit_all (scan_log st);
      if scan_is_re st then
        _ ← log DEBUG "Final path = '%s'" [AStr (scan_path st)];
        match std_regex.construct regex_library (scan_path st) true with
        | inr re =>
            mret (Build true method (scan_path st) controller handler
                        (scan_names st) re)
        | inl (code, what) => throw (regex_error code what)
        end
      else
        mret (Build false method (scan_path st) controller handler
                    (scan_names st) std_regex.empty)
  end.
End constructor.

(** [req.parameters[ names[i - 1] ] = m[i].str()] for [i] from 1 below
    [m.size()]. *)
Definition bind_one (names : list string) (m : std_regex.smatch)
    (ps : gmap string string) (i : nat) : gmap string string :=
  <[nth (i - 1) names EmptyString := std_regex.sub m i]> ps.

Definition bind_parameters (names : list string) (m : std_regex.smatch)
    (ps : gmap string string) : gmap string string :=
  foldl (bind_one names m) ps (seq 1 (std_regex.size m - 1)).

(** [matches]: the answer and the request as it is left. *)
Definition matches (r : t) (req : http_request.t)
    : bool * http_request.t :=
  if bool_decide (method r ≠ ANY)
     && bool_decide (http_request.method req ≠ method r)
  then (false, req)
  else if negb (is_re r)
  then (String.eqb (http_request.path req) (path r), req)
  else
    let '(found, m) := std_regex.regex_search (http_request.path req) (re r) in
    if found && (std_regex.size m =? length (names r) + 1)
    then (true,
          http_request.set_parameters
            (bind_parameters (names r) m (http_request.parameters req)) req)
    else (false, req).

Section call.
Context `{Collaborators}.

Definition call (r : t) (req : http_request.t) (resp : http_response.t)
    : M (http_request.t * http_response.t) :=
  _ ← emit (Call (controller r) (handler r) req);
  outside (invoke (controller r) (handler r) req resp).
End call.

End http_route.

(** ** [http_consumer] *)

Module http_consumer.
Section consumer.
Context `{Collaborators}.

(** [_routes]: the table shared with the server, in registration
    order. *)
Fixpoint route (routes : list http_route.t) (request : http_request.t)
    (response : http_response.t)
    : M (http_request.t * http_response.t) :=
  match routes with
  | r :: rest =>
      let '(matched, request') := http_route.matches r request in
      if matched then
        _ ← log DEBUG "'%s %s' matched controller %s"
              [AStr (method_name request');
               AStr (http_request.path request');
               AStr (type_name (http_route.controller r))];
        http_route.call r request' response
      else route rest request' response
  | [] =>
      _ ← log WARNING "No route defined for '%s %s'"
            [AStr (method_name request);
             AStr (http_request.path request)];
      mret (request, not_found response)
  end.

(** What printf's [%s] reads from [unsigned char req_buffer[size] = {0}]
    once [written] has been stored from its first byte on: the bytes
    before the first zero byte.  With [size] bytes written and no zero
    among them there is none in the array ([None]), and [%s] reads on past
    its end. *)
Definition c_string (size : nat) (written : string) : option string :=
  let stored := str.take size written in
  match str.until_nul stored with
  | Some text => Some text
  | None => if String.length stored <? size then Some stored else None
  end.

Definition consume (routes : list http_route.t) (client : tcp_stream)
    : M unit :=
  _ ← log DEBUG "New client connection from %s:%d"
        [AStr (peer_address client); AInt (peer_port client)];
  let '(read, req_buffer) := receive client max_size in
  _ ← emit (Receive max_size read);
  if (read <=? 0)%Z then
    log ERROR "Failed to read request from client: %d" [AInt read]
  else
    _ ← log DEBUG "Read %d bytes of request from client." [AInt read];
    parsed ← try_catch_regex_error
      (fun tr =>
         match parse new_request req_buffer read with
         | Ret (false, _) =>
             match c_string max_size req_buffer with
             | Some text =>
                 (_ ← log ERROR "Could not parse request:\n%s" [AStr text];
                  mret None) tr
             | None => (Undefined, tr)
             end
         | Ret (true, request) => (Ret (Some request), tr)
         | Throw e => (Throw e, tr)
         | Diverge => (Diverge, tr)
         | Undefined => (Undefined, tr)
         end)
      (fun code what =>
         _ ← log ERROR "Exception (%d) while parsing request: %s"
               [AInt code; AStr what];
         mret None);
    match parsed with
    | None => mret tt
    | Some request =>
        '(_, response) ← route routes request new_response;
        let res_buffer := response_str response in
        let sent := send client res_buffer in
        _ ← emit (Send res_buffer sent);
        if bool_decide (sent ≠ Z.of_nat (String.length res_buffer)) then
          log ERROR
            "Could not send whole response, sent %d out of %lu bytes."
            [AInt sent; AInt (Z.of_nat (String.length res_buffer))]
        else mret tt
    end.

(** Modelled from the spec: the worker loop is declared in consumer.h,
    outside http_server.cpp: "pull connection, read bytes, parse,
    dispatch, serialize response, write back", once per connection pulled
    off the queue, here the connections in the order they are pulled. *)
Fixpoint run (routes : list http_route.t) (queue : list tcp_stream)
    : M unit :=
  match queue with
  | [] => mret tt
  | client :: queue' => _ ← consume routes client; run routes queue'
  end.
End consumer.
End http_consumer.

(** ** [http_server::route]: registration appends to the table *)

Module http_server.
Section server.
Context `{Collaborators}.

Definition route (_routes : list http_route.t) (path : string)
    (controller handler : nat) (method : Method)
    : M (list http_route.t) :=
  _ ← log DEBUG "Registering controller %s for path '%s'"
        [AStr (type_name controller); AStr path];
  r ← http_route.http_route path controller handler method;
  mret (_routes ++ [r]).
End server.
End http_server.

(** * Vocabulary of the statements *)

(** From [(pos, s, caps)] the matcher has read [u] and kept the number of
    groups. *)
Definition advances (pos : nat) (s : string) (caps : list (option string))
    (pos' : nat) (s' : string) (caps' : list (option string)) : Prop :=
  ∃ u, s = u +:+ s' ∧ pos' = pos + String.length u
       ∧ length caps' = length caps.

(** Whatever a matcher returns, its continuation returned, at a point
    further on. *)
Definition forwards {R : Type}
    (body : nat → string → list (option string) → std_regex.cont (R:=R)
            → option R) : Prop :=
  ∀ pos s caps k x,
    body pos s caps k = Some x →
    ∃ pos' s' caps',
      advances pos s caps pos' s' caps' ∧ k pos' s' caps' = Some x.



(** ** Tokens, as the text of a template shows them *)

(** The two bracket expressions of [NAMED_PARAM_PARSER]. *)
Definition name_class : std_regex.regex :=
  std_regex.RClass false
    [std_regex.CChar "_"; std_regex.CRange "a" "z"; std_regex.CRange "0" "9"].

Definition expr_class : std_regex.regex :=
  std_regex.RClass true [std_regex.CChar ")"].

(** A character of a parameter name: a letter of either case, a digit or
    an underscore; a character of the expression: anything but the closing
    parenthesis. *)
Definition name_char (c : ascii) : bool := chars.is_word c.

Definition expr_char (c : ascii) : bool := negb (chars.eqb c ")").

(** [here] opens with the token [:name(expr)], and [after] follows it. *)
Definition token_at (name expr after here : string) : Prop :=
  here = ":" +:+ name +:+ "(" +:+ expr +:+ ")" +:+ after
  ∧ name ≠ ""
  ∧ all_chars name_char name = true
  ∧ all_chars expr_char expr = true.

(** The template has a token somewhere. *)
Definition has_token (P : string) : Prop :=
  ∃ before name expr after here,
    P = before +:+ here ∧ token_at name expr after here.

(** [matches] answers [true]. *)
Definition matched (r : http_route.t) (req : http_request.t) : Prop :=
  (http_route.matches r req).1 = true.

(** The method constraint of a route admits the request. *)
Definition method_ok (r : http_route.t) (req : http_request.t) : Prop :=
  http_route.method r = ANY ∨ http_request.method req = http_route.method r.

(** A template with no [:name(regex)] token: the token parser finds
    nothing in it. *)
Definition literal_template (P : string) : Prop :=
  (std_regex.regex_search P NAMED_PARAM_PARSER).1 = false.

(** A computation that only appends to the trace, and does the same
    whatever the trace holds already. *)
Definition framed {A : Type} (m : M A) : Prop :=
  ∀ tr, m tr = ((m []).1, tr ++ (m []).2).

(** The handlers a run invoked, as (controller, handler), in order. *)
Definition handler_calls (tr : trace) : list (nat * nat) :=
  omap (fun e => match e with Call c h _ => Some (c, h) | _ => None end) tr.

(** What a run wrote to connections, in order. *)
Definition bytes_sent (tr : trace) : list string :=
  omap (fun e => match e with Send data _ => Some data | _ => None end) tr.

Section route_vocabulary.
Context `{Collaborators}.

(** The two log lines of [route] and the call it makes. *)
Definition matched_line (r : http_route.t) (req : http_request.t) : event :=
  Log DEBUG "'%s %s' matched controller %s"
      [AStr (method_name req); AStr (http_request.path req);
       AStr (type_name (http_route.controller r))].

Definition no_route_line (req : http_request.t) : event :=
  Log WARNING "No route defined for '%s %s'"
      [AStr (method_name req); AStr (http_request.path req)].

(** What [route] does once [r] has matched: it ends as the handler
    ends. *)
Definition dispatch_to (r : http_route.t) (req : http_request.t)
    (resp : http_response.t) (tr : trace)
    : outcome (http_request.t * http_response.t) * trace :=
  let req' := (http_route.matches r req).2 in
  (invoke (http_route.controller r) (http_route.handler r) req' resp,
   tr ++ [matched_line r req';
          Call (http_route.controller r) (http_route.handler r) req']).

(** The log lines of [consume]. *)
Definition connection_line (client : tcp_stream) : event :=
  Log DEBUG "New client connection from %s:%d"
      [AStr (peer_address client); AInt (peer_port client)].

Definition read_failed_line (read : Z) : event :=
  Log ERROR "Failed to read request from client: %d" [AInt read].

Definition read_line (read : Z) : event :=
  Log DEBUG "Read %d bytes of request from client." [AInt read].

Definition parse_failed_line (req_buffer : string) : event :=
  Log ERROR "Could not parse request:\n%s" [AStr req_buffer].

Definition parse_exception_line (code : Z) (what : string) : event :=
  Log ERROR "Exception (%d) while parsing request: %s" [AInt code; AStr what].

(** The two ways the parser reports bytes it cannot parse: it returns
    false (and the buffer, which holds a zero byte, is logged up to it),
    or the pattern matching inside it throws [std::regex_error]. *)
Inductive parse_failure (req_buffer : string) (read : Z) : event → Prop :=
| parse_returns_false request text :
    parse new_request req_buffer read = Ret (false, request) →
    http_consumer.c_string max_size req_buffer = Some text →
    parse_failure req_buffer read (parse_failed_line text)
| parse_throws code what :
    parse new_request req_buffer read = Throw (regex_error code what) →
    parse_failure req_buffer read (parse_exception_line code what).

End route_vocabulary.

(** The tokens of a template from left to right, each with its name and
    its expression: the leftmost token, then the tokens of what follows
    it. *)
Inductive tokens_of : string → list (string * string) → Prop :=
| tokens_none P : ¬ has_token P → tokens_of P []
| tokens_next P before here name expr after rest :
    P = before +:+ here →
    token_at name expr after here →
    (∀ before' here' name' expr' after',
       P = before' +:+ here' → token_at name' expr' after' here' →
       String.length before ≤ String.length before') →
    tokens_of after rest →
    tokens_of P ((name, expr) :: rest).

(** The tokens of a template, computed with the token parser; [None]
    when [fuel] searches do not reach the end of the text. *)
Fixpoint tokens_found (fuel : nat) (tmp : string)
    : option (list (string * string)) :=
  match fuel with
  | 0 => None
  | S fuel' =>
      let '(found, m) := std_regex.regex_search tmp NAMED_PARAM_PARSER in
      if found
      then rest ← tokens_found fuel' (std_regex.suffix m);
           Some ((std_regex.sub m 1, std_regex.sub m 2) :: rest)
      else Some []
  end.

(** The reads a run made of connections, as (limit, count), in order. *)
Definition reads (tr : trace) : list (nat * Z) :=
  omap (fun e => match e with Receive max n => Some (max, n) | _ => None end)
       tr.

(** The log line of [consume] for a write that fell short. *)
Definition short_write_line (sent : Z) (size : nat) : event :=
  Log ERROR "Could not send whole response, sent %d out of %lu bytes."
      [AInt sent; AInt (Z.of_nat size)].

Section reply_vocabulary.
Context `{Collaborators}.

(** What [consume] does once [route] has ended: when [route] returned,
    it writes the serialised response, once, and reports a write that fell
    short; otherwise it ends as [route] did and writes nothing. *)
Definition reply (client : tcp_stream)
    (o : outcome (http_request.t * http_response.t))
    : outcome unit * list event :=
  match o with
  | Ret (_, response) =>
      let res_buffer := response_str response in
      let sent := send client res_buffer in
      (Ret tt,
       Send res_buffer sent
       :: (if bool_decide (sent ≠ Z.of_nat (String.length res_buffer))
           then [short_write_line sent (String.length res_buffer)]
           else []))
  | Throw e => (Throw e, [])
  | Diverge => (Diverge, [])
  | Undefined => (Undefined, [])
  end.

End reply_vocabulary.

(** A search with a pattern compiled on the spot, [icase] set. *)
Definition searched (pattern subject : string)
    : option (bool * std_regex.smatch) :=
  re ← std_regex.compile pattern true;
  Some (std_regex.regex_search subject re).

(** ** The groups of a pattern, as its text shows them *)

(** The capturing parentheses among the tokens of a pattern. *)
Fixpoint count_opens (ts : list std_regex.token) : nat :=
  match ts with
  | [] => 0
  | std_regex.TOpen true :: ts' => S (count_opens ts')
  | _ :: ts' => count_opens ts'
  end.

Definition pstate_of (mode : std_regex.lexmode) : std_regex.pstate :=
  match mode with
  | std_regex.LClass _ _ => std_regex.PBracket
  | _ => std_regex.PNormal
  end.

(** The state of the reading after [s], and the groups counted on the
    way. *)
Fixpoint pstate_after (q : std_regex.pstate) (s : string) : std_regex.pstate :=
  match s with
  | EmptyString => q
  | String c s' => pstate_after (std_regex.pstep q c).1 s'
  end.

Fixpoint opens_within (q : std_regex.pstate) (s : string) : nat :=
  match s with
  | EmptyString => 0
  | String c s' =>
      (std_regex.pstep q c).2 + opens_within (std_regex.pstep q c).1 s'
  end.

(** Where a colon is an ordinary character of the pattern: not right
    after a backslash, and not in or at the start of a [[: :]], [[. .]] or
    [[= =]] name. *)
Definition colon_safe (q : std_regex.pstate) : bool :=
  match q with
  | std_regex.PNormal | std_regex.POpen | std_regex.PBracket => true
  | _ => false
  end.

Definition is_colon (c : ascii) : bool :=
  match std_regex.kind_of c with std_regex.KColon => true | _ => false end.

Fixpoint colons_plain_from (q : std_regex.pstate) (s : string) : bool :=
  match s with
  | EmptyString => true
  | String c s' =>
      (if is_colon c then colon_safe q else true)
      && colons_plain_from (std_regex.pstep q c).1 s'
  end.

(** A template of which every colon is an ordinary character. *)
Definition colons_plain (P : string) : Prop :=
  colons_plain_from std_regex.PNormal P = true.

(** ** A small application, for the worked instances *)

Definition example_request (m : Method) (p : string) : http_request.t :=
  http_request.Build m p ∅ "" ∅.

Definition example_response : http_response.t := http_response.Build 200 ∅ "".

(** The letters a text opens with. *)
Fixpoint letters (s : string) : string :=
  match s with
  | String c s' => if chars.is_alpha c then String c (letters s') else ""
  | EmptyString => ""
  end.

(** What [std::regex] builds from [/([[:alpha:]]+)]: a slash and the
    letters after it, at least one, which are group 1. *)
Definition slash_letters : std_regex.foreign := fun pos s =>
  match s with
  | String "/" s' =>
      match letters s' with
      | EmptyString => None
      | word => Some (S (String.length word), [Some word])
      end
  | _ => None
  end.

(** Handlers answer 200 with the path they were called for; of the
    patterns outside the fragment the library is asked for
    [/([[:alpha:]]+)] alone, and rejects any other with
    [std::regex_error]; the parser accepts a buffer that starts with "GET ", takes the rest as the path,
    stumbles over a buffer that starts with "(" and rejects anything
    else. *)
Definition example_collaborators : Collaborators := {|
  invoke c h req resp :=
    Ret (req, http_response.Build 200 ∅ (http_request.path req));
  type_name c := "controller";
  parse req buffer size :=
    if str.starts_with "GET " buffer
    then Ret (true, example_request GET (str.drop 4 buffer))
    else if str.starts_with "(" buffer
    then Throw (regex_error 5 "mismatched parentheses")
    else Ret (false, req);
  regex_library pattern icase :=
    if String.eqb pattern "/([[:alpha:]]+)" then inr slash_letters
    else inl (5%Z, "regex_error");
  max_size := 1024;
  method_name req := "GET";
  new_request := example_request ANY "";
  new_response := example_response;
  not_found resp := http_response.Build 404 ∅ "Not Found";
  response_str resp := http_response.body resp
|}.

(** A parser that runs out of memory on every request. *)
Definition failing_collaborators : Collaborators := {|
  invoke := invoke (Collaborators:=example_collaborators);
  type_name := type_name (Collaborators:=example_collaborators);
  parse req buffer size := Throw (other_exception "std::bad_alloc");
  regex_library := regex_library (Collaborators:=example_collaborators);
  max_size := 1024;
  method_name := method_name (Collaborators:=example_collaborators);
  new_request := example_request ANY "";
  new_response := example_response;
  not_found := not_found (Collaborators:=example_collaborators);
  response_str := response_str (Collaborators:=example_collaborators)
|}.

(** An application with a request buffer of eight bytes, whose handler
    number 0 throws and whose parser runs out of memory on a PUT. *)
Definition faulty_collaborators : Collaborators := {|
  invoke c h req resp :=
    match h with
    | 0 => Throw (other_exception "std::runtime_error")
    | _ => Ret (req, http_response.Build 200 ∅ (http_request.path req))
    end;
  type_name c := "controller";
  parse req buffer size :=
    if str.starts_with "GET " buffer
    then Ret (true, example_request GET (str.drop 4 buffer))
    else if str.starts_with "PUT " buffer
    then Throw (other_exception "std::bad_alloc")
    else Ret (false, req);
  regex_library pattern icase := inl (5%Z, "regex_error");
  max_size := 8;
  method_name req := "GET";
  new_request := example_request ANY "";
  new_response := example_response;
  not_found resp := http_response.Build 404 ∅ "Not Found";
  response_str resp := http_response.body resp
|}.

(** A peer that sends [data] and takes everything written to it. *)
Definition example_client (data : string) : tcp_stream := {|
  peer_address := "127.0.0.1";
  peer_port := 4000;
  receive max := (Z.of_nat (String.length data), data);
  send buffer := Z.of_nat (String.length buffer)
|}.

(** A route as the constructor leaves it for a template without tokens. *)
Definition literal_route (P : string) (controller handler : nat)
    (method : Method) : http_route.t :=
  http_route.Build false method P controller handler [] std_regex.empty.

(** * Properties *)

(** ** Strings *)

Section string_facts.

Lemma str_app_cons (c : ascii) (s t : string) :
  String c s +:+ t = String c (s +:+ t).
Proof. reflexivity. Qed.

Lemma str_app_nil_l (s : string) : "" +:+ s = s.
Proof. reflexivity. Qed.

Lemma str_app_nil_r (s : string) : s +:+ "" = s.
Proof.
  induction s as [|c s IH]; [done|]. by rewrite str_app_cons, IH.
Qed.

Lemma str_app_assoc (s1 s2 s3 : string) :
  (s1 +:+ s2) +:+ s3 = s1 +:+ (s2 +:+ s3).
Proof.
  induction s1 as [|c s1 IH]; [done|]. by rewrite !str_app_cons, IH.
Qed.

Lemma str_length_app (s1 s2 : string) :
  String.length (s1 +:+ s2) = String.length s1 + String.length s2.
Proof.
  induction s1 as [|c s1 IH]; [done|]. rewrite str_app_cons. simpl.
  by rewrite IH.
Qed.

Lemma str_take_app (s1 s2 : string) :
  str.take (String.length s1) (s1 +:+ s2) = s1.
Proof.
  induction s1 as [|c s1 IH]; [by destruct s2|].
  rewrite str_app_cons. simpl. by rewrite IH.
Qed.

Lemma str_eqb_true (s1 s2 : string) : String.eqb s1 s2 = true ↔ s1 = s2.
Proof. apply String.eqb_eq. Qed.

End string_facts.

(** ** The matcher only moves forward *)

Section matcher_facts.
Import std_regex.

Lemma advances_refl pos s caps : advances pos s caps pos s caps.
Proof. exists "". rewrite str_app_nil_l. simpl. repeat split; lia. Qed.

Lemma advances_trans p0 s0 c0 p1 s1 c1 p2 s2 c2 :
  advances p0 s0 c0 p1 s1 c1 → advances p1 s1 c1 p2 s2 c2 →
  advances p0 s0 c0 p2 s2 c2.
Proof.
  intros (u & -> & -> & Hc1) (v & -> & -> & Hc2).
  exists (u +:+ v). rewrite str_app_assoc, str_length_app.
  repeat split; [lia | congruence].
Qed.

Lemma advances_one pos c s caps : advances pos (String c s) caps (S pos) s caps.
Proof.
  exists (String c ""). rewrite str_app_cons, str_app_nil_l. simpl.
  repeat split; lia.
Qed.

Lemma advances_length p0 s0 c0 p1 s1 c1 :
  advances p0 s0 c0 p1 s1 c1 → String.length s1 ≤ String.length s0.
Proof. intros (u & -> & _ & _). rewrite str_length_app. lia. Qed.

Lemma advances_insert p0 s0 c0 p1 s1 c1 i x :
  advances p0 s0 c0 p1 s1 c1 → advances p0 s0 c0 p1 s1 (<[i := x]> c1).
Proof.
  intros (u & -> & -> & Hc). exists u. by rewrite length_insert.
Qed.

Lemma str_take_drop n s : str.take n s +:+ str.drop n s = s.
Proof.
  revert s. induction n as [|n IH]; intros [|c s]; simpl; try done.
  by rewrite str_app_cons, IH.
Qed.

Lemma str_length_take n s :
  n ≤ String.length s → String.length (str.take n s) = n.
Proof.
  revert s. induction n as [|n IH]; intros [|c s]; simpl; try done; [lia|].
  intros Hn. rewrite IH; [done | lia].
Qed.

Lemma length_overlay groups caps : length (overlay groups caps) = length caps.
Proof. unfold overlay. by rewrite length_imap. Qed.

Lemma advances_foreign pos s caps n groups :
  n ≤ String.length s →
  advances pos s caps (pos + n) (str.drop n s) (overlay groups caps).
Proof.
  intros Hn. exists (str.take n s).
  rewrite str_take_drop, str_length_take, length_overlay by done. done.
Qed.

Section run.
Context {R : Type} (ic : bool).

Lemma star_loop_forwards (body : nat → string → captures → cont → option R) n :
  forwards body →
  forwards (fun pos s caps (k : cont) => star_loop body k n pos s caps).
Proof.
  intros Hbody. induction n as [|n IH]; intros pos s caps k' x; simpl.
  - intros Hk. exists pos, s, caps. split; [apply advances_refl | done].
  - destruct (body pos s caps _) as [y|] eqn:Hb.
    + intros [= ->].
      apply Hbody in Hb as (p1 & s1 & c1 & Hadv & Hk).
      destruct (String.length s1 <? String.length s); [|done].
      apply IH in Hk as (p2 & s2 & c2 & Hadv' & Hk).
      exists p2, s2, c2. split; [by eapply advances_trans | done].
    + intros Hk. exists pos, s, caps. split; [apply advances_refl | done].
Qed.

Lemma lazy_loop_forwards (body : nat → string → captures → cont → option R) n :
  forwards body →
  forwards (fun pos s caps (k : cont) => lazy_loop body k n pos s caps).
Proof.
  intros Hbody. induction n as [|n IH]; intros pos s caps k' x; simpl;
    destruct (k' pos s caps) as [y|] eqn:Hk; try done.
  - intros [= ->]. exists pos, s, caps. split; [apply advances_refl | done].
  - intros [= ->]. exists pos, s, caps. split; [apply advances_refl | done].
  - intros Hb. apply Hbody in Hb as (p1 & s1 & c1 & Hadv & Hb).
    destruct (String.length s1 <? String.length s); [|done].
    apply IH in Hb as (p2 & s2 & c2 & Hadv' & Hb).
    exists p2, s2, c2. split; [by eapply advances_trans | done].
Qed.

Lemma run_forwards (r : regex) : forwards (R:=R) (run ic r).
Proof.
  induction r as [| c | | neg items | | | r1 IH1 r2 IH2 | r1 IH1 r2 IH2
                  | r IH | r IH | i r IH | f];
    intros pos s caps k x; simpl.
  - intros Hk. exists pos, s, caps. split; [apply advances_refl | done].
  - destruct s as [|d s]; [done|]. destruct (char_eq ic c d); [|done].
    intros Hk. exists (S pos), s, caps. split; [apply advances_one | done].
  - destruct s as [|d s]; [done|].
    destruct (chars.is_line_terminator d); [done|].
    intros Hk. exists (S pos), s, caps. split; [apply advances_one | done].
  - destruct s as [|d s]; [done|].
    destruct (class_has ic neg items d); [|done].
    intros Hk. exists (S pos), s, caps. split; [apply advances_one | done].
  - destruct (pos =? 0); [|done].
    intros Hk. exists pos, s, caps. split; [apply advances_refl | done].
  - destruct s as [|d s]; [|done].
    intros Hk. exists pos, "", caps. split; [apply advances_refl | done].
  - intros Hr. apply IH1 in Hr as (p1 & s1 & c1 & Hadv & Hr).
    apply IH2 in Hr as (p2 & s2 & c2 & Hadv' & Hk).
    exists p2, s2, c2. split; [by eapply advances_trans | done].
  - destruct (run ic r1 pos s caps k) as [y|] eqn:Hr1.
    + intros [= ->]. by apply IH1.
    + apply IH2.
  - intros Hr.
    exact (star_loop_forwards (run ic r) (String.length s) IH
             pos s caps k x Hr).
  - intros Hr.
    exact (lazy_loop_forwards (run ic r) (String.length s) IH
             pos s caps k x Hr).
  - intros Hr. apply IH in Hr as (p1 & s1 & c1 & Hadv & Hk).
    eexists p1, s1, _. split; [|exact Hk]. by apply advances_insert.
  - destruct (f pos s) as [[n groups]|]; [|done].
    destruct (n <=? String.length s) eqn:Hn; [|done].
    apply Nat.leb_le in Hn. intros Hk. eexists _, _, _.
    split; [by apply advances_foreign | exact Hk].
Qed.
End run.

Lemma run_seq_char {R} ic c r pos s caps (k : cont (R:=R)) :
  run ic (RSeq (RChar c) r) pos s caps k =
  match s with
  | String d s' => if char_eq ic c d then run ic r (S pos) s' caps k else None
  | EmptyString => None
  end.
Proof. reflexivity. Qed.

Lemma match_here_advances re pos s rest caps :
  match_here re pos s = Some (rest, caps) →
  (∃ u, s = u +:+ rest) ∧ length caps = S (mark_count re).
Proof.
  unfold match_here. intros Hr.
  apply run_forwards in Hr as (p & s' & c & (u & -> & _ & Hc) & [= -> ->]).
  split; [by exists u|]. by rewrite Hc, length_replicate.
Qed.

End matcher_facts.

(** ** The matcher, one construct at a time *)

Section matcher_equations.
Import std_regex.

Lemma run_RSeq {R} ic r1 r2 pos s caps (k : cont (R:=R)) :
  run ic (RSeq r1 r2) pos s caps k
  = run ic r1 pos s caps (fun pos' s' caps' => run ic r2 pos' s' caps' k).
Proof. reflexivity. Qed.

Lemma run_RChar {R} ic c pos s caps (k : cont (R:=R)) :
  run ic (RChar c) pos s caps k
  = match s with
    | String d s' => if char_eq ic c d then k (S pos) s' caps else None
    | EmptyString => None
    end.
Proof. reflexivity. Qed.

Lemma run_RClass {R} ic neg items pos s caps (k : cont (R:=R)) :
  run ic (RClass neg items) pos s caps k
  = match s with
    | String d s' =>
        if class_has ic neg items d then k (S pos) s' caps else None
    | EmptyString => None
    end.
Proof. reflexivity. Qed.

Lemma run_RStar {R} ic r pos s caps (k : cont (R:=R)) :
  run ic (RStar r) pos s caps k
  = star_loop (run ic r) k (String.length s) pos s caps.
Proof. reflexivity. Qed.

Lemma run_RGroup {R} ic i r pos s caps (k : cont (R:=R)) :
  run ic (RGroup i r) pos s caps k
  = run ic r pos s caps (fun pos' s' caps' =>
      k pos' s'
        (<[i := Some (str.take (String.length s - String.length s') s)]>
           caps')).
Proof. reflexivity. Qed.

Lemma star_loop_0 {R} body (k : cont (R:=R)) pos s caps :
  star_loop body k 0 pos s caps = k pos s caps.
Proof. reflexivity. Qed.

Lemma star_loop_S {R} body (k : cont (R:=R)) n pos s caps :
  star_loop body k (S n) pos s caps
  = match
      body pos s caps (fun pos' s' caps' =>
        if String.length s' <? String.length s
        then star_loop body k n pos' s' caps'
        else None)
    with
    | Some x => Some x
    | None => k pos s caps
    end.
Proof. reflexivity. Qed.

Lemma ltb_tail c s : (String.length s <? String.length (String c s)) = true.
Proof. apply Nat.ltb_lt. simpl. lia. Qed.

(** A starred bracket expression reads characters of the class, and
    greedily: all of them when what follows can go on from there. *)
Lemma star_class_reads {R} ic neg items (k : cont (R:=R)) n pos s caps x :
  star_loop (run ic (RClass neg items)) k n pos s caps = Some x →
  ∃ u s',
    s = u +:+ s'
    ∧ all_chars (class_has ic neg items) u = true
    ∧ k (pos + String.length u) s' caps = Some x.
Proof.
  assert (∀ pos s, k pos s caps = Some x →
            ∃ u s', s = u +:+ s'
                    ∧ all_chars (class_has ic neg items) u = true
                    ∧ k (pos + String.length u) s' caps = Some x) as Hstop.
  { intros p t Hk. exists "", t. simpl. by rewrite Nat.add_0_r. }
  revert pos s. induction n as [|n IH]; intros pos s.
  - rewrite star_loop_0. apply Hstop.
  - rewrite star_loop_S, run_RClass.
    destruct s as [|d s]; [apply Hstop|].
    destruct (class_has ic neg items d) eqn:Hd; [|apply Hstop].
    rewrite ltb_tail.
    destruct (star_loop _ k n (S pos) s caps) as [y|] eqn:Hloop;
      [|apply Hstop].
    intros [= ->].
    apply IH in Hloop as (u & s' & -> & Hu & Hk).
    exists (String d u), s'. rewrite str_app_cons. simpl.
    rewrite Hd, Hu, Nat.add_succ_r. done.
Qed.

Lemma star_class_greedy {R} ic neg items (k : cont (R:=R)) n pos u s' caps x :
  all_chars (class_has ic neg items) u = true →
  match s' with
  | String d _ => class_has ic neg items d = false
  | EmptyString => True
  end →
  String.length (u +:+ s') ≤ n →
  k (pos + String.length u) s' caps = Some x →
  star_loop (run ic (RClass neg items)) k n pos (u +:+ s') caps = Some x.
Proof.
  intros Hu Hs'. revert n pos Hu.
  induction u as [|c u IH]; intros n pos Hu Hn Hk.
  - rewrite str_app_nil_l in *. simpl in Hk. rewrite Nat.add_0_r in Hk.
    destruct n as [|n]; [done|]. rewrite star_loop_S, run_RClass.
    destruct s' as [|d s']; [done|]. by rewrite Hs'.
  - rewrite str_app_cons in *. simpl in Hu, Hn, Hk.
    apply andb_true_iff in Hu as [Hc Hu].
    destruct n as [|n]; [lia|]. rewrite star_loop_S, run_RClass, Hc, ltb_tail.
    rewrite (IH n (S pos)); [done | done | lia |].
    by rewrite Nat.add_succ_l, <- Nat.add_succ_r.
Qed.

End matcher_equations.

(** ** [regex_search] tries every start, leftmost first *)

Section search_facts.
Import std_regex.

Lemma search_from_found re pos before s m :
  search_from re pos before s = (true, m) →
  ∃ skipped here caps,
    s = skipped +:+ here
    ∧ match_here re (pos + String.length skipped) here = Some (suffix m, caps)
    ∧ prefix m = before +:+ skipped
    ∧ subs m =
        <[0 := Some (str.take (String.length here - String.length (suffix m))
                              here)]> caps
    ∧ ∀ skipped' here',
        s = skipped' +:+ here' →
        String.length skipped' < String.length skipped →
        match_here re (pos + String.length skipped') here' = None.
Proof.
  revert pos before.
  induction s as [|c s IH]; intros pos before; simpl;
    destruct (match_here re pos _) as [[rest caps]|] eqn:Hm.
  - intros [= <-]. exists "", "", caps. simpl.
    split_and!; rewrite ?Nat.add_0_r, ?str_app_nil_r; try done.
    intros ? ? _ ?; lia.
  - done.
  - intros [= <-]. exists "", (String c s), caps. simpl.
    split_and!; rewrite ?Nat.add_0_r, ?str_app_nil_r; try done.
    intros ? ? _ ?; lia.
  - intros Hs.
    apply IH in Hs as (skipped & here & caps & -> & Hh & Hp & Hsubs & Hleft).
    exists (String c skipped), here, caps. simpl.
    rewrite Nat.add_succ_r. split_and!; try done.
    + by rewrite Hp, str_app_assoc.
    + intros [|c' skipped'] here'.
      * rewrite str_app_nil_l. intros <- _. simpl.
        by rewrite Nat.add_0_r.
      * rewrite !str_app_cons. intros [= <- Heq]. simpl. intros Hlt.
        rewrite Nat.add_succ_r. apply Hleft; [done | lia].
Qed.

Lemma search_from_finds re pos before skipped here :
  is_Some (match_here re (pos + String.length skipped) here) →
  (search_from re pos before (skipped +:+ here)).1 = true.
Proof.
  revert pos before.
  induction skipped as [|c skipped IH]; intros pos before.
  - rewrite str_app_nil_l. simpl. rewrite Nat.add_0_r.
    intros [[rest caps] Hm]. destruct here; simpl; by rewrite Hm.
  - rewrite str_app_cons. simpl. rewrite Nat.add_succ_r. intros Hm.
    destruct (match_here re pos _) as [[rest caps]|]; [done|].
    by apply IH.
Qed.

Lemma search_from_not_found re pos before s m :
  search_from re pos before s = (false, m) → m = no_match.
Proof.
  revert pos before.
  induction s as [|c s IH]; intros pos before; simpl;
    destruct (match_here re pos _) as [[rest caps]|]; try done.
  - by intros [= <-].
  - apply IH.
Qed.

(** The result splits the subject, and always has [mark_count + 1]
    entries. *)
Lemma regex_search_found s re m :
  regex_search s re = (true, m) →
  s = prefix m +:+ sub m 0 +:+ suffix m ∧ size m = S (mark_count re).
Proof.
  unfold regex_search. intros Hs.
  apply search_from_found in Hs
    as (skipped & here & caps & -> & Hh & Hp & Hsubs & _).
  apply match_here_advances in Hh as [[u ->] Hc].
  rewrite str_app_nil_l in Hp. unfold sub, size. rewrite Hp, Hsubs.
  rewrite length_insert. split; [|done].
  rewrite list_lookup_insert_eq by lia.
  rewrite str_length_app, Nat.add_sub, str_take_app. done.
Qed.

End search_facts.

(** ** Anchors *)

Section anchor_facts.
Import std_regex.




End anchor_facts.

(** ** What [NAMED_PARAM_PARSER] finds *)

Section token_search.
Import std_regex.

Lemma NAMED_PARAM_PARSER_ast :
  NAMED_PARAM_PARSER
  = Regex
      (RSeq (RChar ":")
         (RSeq (RGroup 1 (RSeq name_class (RStar name_class)))
            (RSeq (RChar "(")
               (RSeq (RGroup 2 (RStar expr_class)) (RChar ")")))))
      true 2.
Proof. reflexivity. Qed.

Ltac each_char d :=
  destruct d as [[] [] [] [] [] [] [] []]; vm_compute;
  try reflexivity; try (split; congruence).

Lemma colon_eq d : char_eq true ":" d = true ↔ d = ":"%char.
Proof. each_char d. Qed.

Lemma open_eq d : char_eq true "(" d = true ↔ d = "("%char.
Proof. each_char d. Qed.

Lemma close_eq d : char_eq true ")" d = true ↔ d = ")"%char.
Proof. each_char d. Qed.

Lemma name_class_has d :
  class_has true false
    [CChar "_"; CRange "a" "z"; CRange "0" "9"] d = name_char d.
Proof. each_char d. Qed.

Lemma expr_class_has d :
  class_has true true [CChar ")"] d = expr_char d.
Proof. each_char d. Qed.

Lemma all_chars_ext (p q : ascii → bool) s :
  (∀ c, p c = q c) → all_chars p s = all_chars q s.
Proof.
  intros Hpq. induction s as [|c s IH]; simpl; [done|].
  by rewrite Hpq, IH.
Qed.

Lemma str_take_consumed (v s : string) :
  str.take (String.length (v +:+ s) - String.length s) (v +:+ s) = v.
Proof. by rewrite str_length_app, Nat.add_sub, str_take_app. Qed.

Lemma match_here_token pos here rest caps :
  match_here NAMED_PARAM_PARSER pos here = Some (rest, caps) →
  ∃ name expr,
    token_at name expr rest here ∧ caps = [None; Some name; Some expr].
Proof.
  unfold match_here. rewrite NAMED_PARAM_PARSER_ast.
  cbn [ast icase mark_count replicate].
  rewrite run_RSeq, run_RChar.
  destruct here as [|d0 s1]; [done|].
  destruct (char_eq true ":" d0) eqn:Hd0; [|done].
  apply colon_eq in Hd0 as ->.
  rewrite run_RSeq, run_RGroup, run_RSeq.
  unfold name_class at 1. rewrite run_RClass.
  destruct s1 as [|c1 s2]; [done|]. rewrite name_class_has.
  destruct (name_char c1) eqn:Hc1; [|done].
  rewrite run_RStar. unfold name_class. intros Hstar.
  apply star_class_reads in Hstar as (u & s3 & -> & Hu & Hk).
  rewrite (all_chars_ext _ name_char) in Hu by apply name_class_has.
  rewrite <- str_app_cons, str_take_consumed in Hk.
  rewrite run_RSeq, run_RChar in Hk.
  destruct s3 as [|d1 s4]; [done|].
  destruct (char_eq true "(" d1) eqn:Hd1; [|done].
  apply open_eq in Hd1 as ->.
  rewrite run_RSeq, run_RGroup, run_RStar in Hk. unfold expr_class in Hk.
  apply star_class_reads in Hk as (e & s5 & -> & He & Hk).
  rewrite (all_chars_ext _ expr_char) in He by apply expr_class_has.
  rewrite str_take_consumed, run_RChar in Hk.
  destruct s5 as [|d2 s6]; [done|].
  destruct (char_eq true ")" d2) eqn:Hd2; [|done].
  apply close_eq in Hd2 as ->.
  injection Hk as <- <-.
  exists (String c1 u), e. split; [|done].
  split_and!; try done.
  simpl. by rewrite Hc1.
Qed.

Lemma match_here_token_found pos name expr after here :
  token_at name expr after here →
  match_here NAMED_PARAM_PARSER pos here
  = Some (after, [None; Some name; Some expr]).
Proof.
  intros (-> & Hne & Hname & Hexpr).
  destruct name as [|c1 u]; [done|]. simpl in Hname.
  apply andb_true_iff in Hname as [Hc1 Hu].
  unfold match_here. rewrite NAMED_PARAM_PARSER_ast.
  cbn [ast icase mark_count replicate].
  repeat (rewrite str_app_cons || rewrite str_app_nil_l).
  rewrite run_RSeq, run_RChar.
  rewrite (proj2 (colon_eq ":") eq_refl).
  rewrite run_RSeq, run_RGroup, run_RSeq.
  unfold name_class at 1. rewrite run_RClass, name_class_has, Hc1.
  rewrite run_RStar. unfold name_class.
  apply star_class_greedy.
  - by rewrite (all_chars_ext _ name_char) by apply name_class_has.
  - by rewrite name_class_has.
  - done.
  - rewrite <- (str_app_cons c1 u), str_take_consumed.
    rewrite run_RSeq, run_RChar.
    rewrite (proj2 (open_eq "(") eq_refl).
    rewrite run_RSeq, run_RGroup, run_RStar. unfold expr_class.
    apply star_class_greedy.
    + by rewrite (all_chars_ext _ expr_char) by apply expr_class_has.
    + by rewrite expr_class_has.
    + done.
    + rewrite str_take_consumed, run_RChar.
      by rewrite (proj2 (close_eq ")") eq_refl).
Qed.

(** The search finds the leftmost token of the text, and its groups are
    the name and the expression. *)
Lemma token_search_found tmp m :
  regex_search tmp NAMED_PARAM_PARSER = (true, m) →
  ∃ name expr here,
    tmp = prefix m +:+ here
    ∧ token_at name expr (suffix m) here
    ∧ subs m = [Some (":" +:+ name +:+ "(" +:+ expr +:+ ")");
                Some name; Some expr]
    ∧ ∀ before' here' name' expr' after',
        tmp = before' +:+ here' → token_at name' expr' after' here' →
        String.length (prefix m) ≤ String.length before'.
Proof.
  unfold regex_search. intros Hs.
  apply search_from_found in Hs
    as (skipped & here & caps & -> & Hh & Hp & Hsubs & Hleft).
  rewrite str_app_nil_l in Hp. simpl in Hh.
  pose proof Hh as Htok.
  apply match_here_token in Htok as (name & expr & Htok & ->).
  exists name, expr, here. rewrite Hp. split_and!; [done | done | |].
  - rewrite Hsubs. destruct Htok as (-> & _).
    replace (":" +:+ name +:+ "(" +:+ expr +:+ ")" +:+ suffix m)
      with ((":" +:+ name +:+ "(" +:+ expr +:+ ")") +:+ suffix m)
      by (by rewrite !str_app_assoc).
    by rewrite str_take_consumed.
  - intros before' here' name' expr' after' Heq Htok'.
    destruct (decide (String.length skipped ≤ String.length before'))
      as [|Hlt]; [done|].
    specialize (Hleft before' here' Heq ltac:(lia)). simpl in Hleft.
    by rewrite (match_here_token_found _ _ _ _ _ Htok') in Hleft.
Qed.

Lemma token_search_finds P :
  has_token P → (regex_search P NAMED_PARAM_PARSER).1 = true.
Proof.
  intros (before & name & expr & after & here & -> & Htok).
  apply search_from_finds.
  by rewrite (match_here_token_found _ _ _ _ _ Htok).
Qed.

Lemma has_token_iff P :
  has_token P ↔ (regex_search P NAMED_PARAM_PARSER).1 = true.
Proof.
  split; [apply token_search_finds|].
  destruct (regex_search P NAMED_PARAM_PARSER) as [found m] eqn:Hs.
  simpl. intros ->.
  apply token_search_found in Hs as (name & expr & here & HP & Htok & _).
  by exists (prefix m), name, expr, (suffix m), here.
Qed.

Lemma literal_template_iff P : literal_template P ↔ ¬ has_token P.
Proof.
  unfold literal_template. rewrite has_token_iff.
  destruct (regex_search P NAMED_PARAM_PARSER).1; split; congruence.
Qed.

End token_search.

(** ** A token is never empty *)

Section token_facts.
Import std_regex.

Lemma NAMED_PARAM_PARSER_compiled :
  compile NAMED_PARAM_PARSER_pattern true = Some NAMED_PARAM_PARSER.
Proof. reflexivity. Qed.

Lemma NAMED_PARAM_PARSER_shape :
  ∃ r, ast NAMED_PARAM_PARSER = RSeq (RChar ":") r
       ∧ mark_count NAMED_PARAM_PARSER = 2.
Proof. eexists. split; reflexivity. Qed.

(** A token is never empty: what follows it is strictly shorter than the
    text that was searched. *)
Lemma token_progress tmp m :
  regex_search tmp NAMED_PARAM_PARSER = (true, m) →
  String.length (suffix m) < String.length tmp.
Proof.
  unfold regex_search. intros Hs.
  apply search_from_found in Hs
    as (skipped & here & caps & -> & Hh & _ & _ & _).
  destruct NAMED_PARAM_PARSER_shape as (r & Hr & _).
  unfold match_here in Hh. rewrite Hr, run_seq_char in Hh.
  destruct here as [|d here]; [done|].
  destruct (char_eq _ _ d); [|done].
  apply run_forwards in Hh as (p & s' & c & Hadv & [= -> ->]).
  apply advances_length in Hadv.
  rewrite str_length_app. simpl. lia.
Qed.

Lemma token_groups tmp m :
  regex_search tmp NAMED_PARAM_PARSER = (true, m) → size m = 3.
Proof.
  intros Hs. apply regex_search_found in Hs as [_ ->].
  by destruct NAMED_PARAM_PARSER_shape as (r & _ & ->).
Qed.

Lemma scan_total fuel tmp st :
  String.length tmp < fuel → is_Some (http_route.scan fuel tmp st).
Proof.
  revert tmp st. induction fuel as [|fuel IH]; intros tmp st Hlt; [lia|].
  simpl. destruct (regex_search tmp NAMED_PARAM_PARSER) as [found m] eqn:Hs.
  destruct (found && (size m =? 3)) eqn:Hc; [|done].
  apply andb_true_iff in Hc as [-> _].
  apply IH. apply token_progress in Hs. lia.
Qed.

End token_facts.

(** ** [http_route::matches] *)

Section matches_facts.
Import http_route.

Lemma method_ok_decide r req :
  bool_decide (method r ≠ ANY)
  && bool_decide (http_request.method req ≠ method r) = false
  ↔ method_ok r req.
Proof.
  unfold method_ok.
  destruct (decide (method r = ANY)) as [Ha|Ha];
    destruct (decide (http_request.method req = method r)) as [Hm|Hm].
  - rewrite (bool_decide_eq_false_2 (method r ≠ ANY)) by tauto. tauto.
  - rewrite (bool_decide_eq_false_2 (method r ≠ ANY)) by tauto. tauto.
  - rewrite (bool_decide_eq_false_2 (_ ≠ method r)) by tauto.
    rewrite andb_false_r. tauto.
  - rewrite !bool_decide_eq_true_2 by done. simpl. split; [done | tauto].
Qed.

(** The request a failed match leaves behind. *)
Lemma matches_false r req : (matches r req).1 = false → (matches r req).2 = req.
Proof.
  unfold matches.
  destruct (_ && _); [done|]. destruct (negb (is_re r)); [done|].
  destruct (std_regex.regex_search _ _) as [found m].
  by destruct (_ && _).
Qed.

Lemma matches_literal r req :
  is_re r = false →
  matches r req =
  (if bool_decide (method r ≠ ANY)
      && bool_decide (http_request.method req ≠ method r)
   then false
   else String.eqb (http_request.path req) (path r), req).
Proof. unfold matches. intros ->. simpl. by destruct (_ && _). Qed.

Lemma matched_literal r req :
  is_re r = false →
  matched r req ↔ method_ok r req ∧ http_request.path req = path r.
Proof.
  intros Hre. unfold matched. rewrite matches_literal by done.
  rewrite <- method_ok_decide, <- str_eqb_true.
  destruct (_ && _); simpl; [split; [done | by intros [? _]] | tauto].
Qed.

Lemma matches_regex r req :
  is_re r = true → method_ok r req →
  matches r req =
  let '(found, m) := std_regex.regex_search (http_request.path req) (re r) in
  if found && (std_regex.size m =? length (names r) + 1)
  then (true,
        http_request.set_parameters
          (bind_parameters (names r) m (http_request.parameters req)) req)
  else (false, req).
Proof.
  intros Hre Hm. apply method_ok_decide in Hm.
  unfold matches. by rewrite Hm, Hre.
Qed.

Lemma matched_method_ok r req : matched r req → method_ok r req.
Proof.
  unfold matched, matches. intros Hm. apply method_ok_decide.
  by destruct (_ && _).
Qed.

End matches_facts.

(** ** Binding the groups to the names *)

Section binding_facts.
Import http_route.

Lemma bind_step names m ps n :
  foldl (bind_one names m) ps (seq 1 (S n))
  = <[default EmptyString (names !! n) := std_regex.sub m (S n)]>
      (foldl (bind_one names m) ps (seq 1 n)).
Proof.
  rewrite seq_S, foldl_app. simpl. unfold bind_one at 1.
  replace (S n - 1) with n by lia. by rewrite nth_lookup.
Qed.

(** After [n] turns of the loop, a name holds the group of its last
    occurrence among the first [n] names. *)
Lemma bind_lookup names m ps n i name :
  names !! i = Some name → i < n →
  (∀ j, i < j → j < n → names !! j ≠ Some name) →
  n ≤ length names →
  foldl (bind_one names m) ps (seq 1 n) !! name
  = Some (std_regex.sub m (S i)).
Proof.
  intros Hi. induction n as [|n IH]; intros Hlt Hlast Hn; [lia|].
  rewrite bind_step.
  destruct (decide (i = n)) as [->|Hne].
  - rewrite Hi. simpl. by rewrite lookup_insert_eq.
  - destruct (lookup_lt_is_Some_2 names n) as [key Hkey]; [lia|].
    rewrite Hkey. simpl. rewrite lookup_insert_ne.
    + apply IH; [lia | intros j ? ?; apply Hlast; lia | lia].
    + intros ->. apply (Hlast n); [lia | lia | done].
Qed.

Lemma matched_regex_inv r req :
  is_re r = true → matched r req →
  ∃ m,
    std_regex.regex_search (http_request.path req) (re r) = (true, m)
    ∧ std_regex.size m = length (names r) + 1
    ∧ matches r req
      = (true,
         http_request.set_parameters
           (bind_parameters (names r) m (http_request.parameters req)) req).
Proof.
  intros Hre Hm. pose proof (matched_method_ok r req Hm) as Hok.
  unfold matched in Hm. rewrite matches_regex in * by done.
  destruct (std_regex.regex_search _ _) as [found m].
  destruct (found && _) eqn:Hc; [|done].
  apply andb_true_iff in Hc as [-> Hsize]. apply Nat.eqb_eq in Hsize.
  by exists m.
Qed.

End binding_facts.

(** ** The group count is checked when a route is matched *)

Section group_count_facts.
Import http_route.

Lemma matched_group_count r req :
  is_re r = true → matched r req →
  std_regex.mark_count (re r) = length (names r).
Proof.
  intros Hre Hm.
  destruct (matched_regex_inv r req Hre Hm) as (m & Hs & Hsize & _).
  apply regex_search_found in Hs as [_ Hs]. lia.
Qed.


End group_count_facts.

(** ** The constructor *)

Ltac step_M :=
  unfold mbind, M_bind, mret, M_ret, log, emit, emit_all, throw, diverge;
  simpl.

Section constructor_facts.
Context `{Collaborators}.
Import http_route.

(** The loop leaves its state alone unless it found a token, and then the
    route is a regex route. *)
Lemma scan_untouched_or_re fuel tmp st st' :
  scan fuel tmp st = Some st' → st' = st ∨ scan_is_re st' = true.
Proof.
  revert tmp st. induction fuel as [|fuel IH]; intros tmp st; simpl; [done|].
  destruct (std_regex.regex_search tmp NAMED_PARAM_PARSER) as [found m].
  destruct (found && _).
  - intros Hs. apply IH in Hs as [-> | Hs]; by right.
  - intros [= <-]. by left.
Qed.

Lemma scan_literal fuel P st :
  literal_template P → scan (S fuel) P st = Some st.
Proof.
  unfold literal_template. simpl.
  destruct (std_regex.regex_search P NAMED_PARAM_PARSER) as [found m].
  simpl. by intros ->.
Qed.

Lemma http_route_literal P c h meth tr :
  literal_template P →
  http_route P c h meth tr = (Ret (literal_route P c h meth), tr).
Proof.
  intros HP. unfold http_route. rewrite scan_literal by done.
  step_M. by rewrite app_nil_r.
Qed.

(** What the constructor returns when it returns a route. *)
Lemma http_route_built P c h meth tr r tr' :
  http_route P c h meth tr = (Ret r, tr') →
  ∃ st re',
    scan (S (String.length P)) P (Scan false P [] []) = Some st
    ∧ r = Build (scan_is_re st) meth (scan_path st) c h (scan_names st) re'
    ∧ (scan_is_re st = false → st = Scan false P [] [] ∧ re' = std_regex.empty)
    ∧ (scan_is_re st = true →
       std_regex.construct regex_library (scan_path st) true = inr re').
Proof.
  unfold http_route.
  destruct (scan _ P _) as [st|] eqn:Hs; [|done].
  step_M. destruct (scan_is_re st) eqn:Hre.
  - step_M.
    destruct (std_regex.construct _ (scan_path st) true)
      as [[code what]|re'] eqn:Hc; [done|].
    intros [= <- <-]. exists st, re'. rewrite Hre. by split_and!.
  - intros [= <- <-]. exists st, std_regex.empty. rewrite Hre.
    split_and!; try done. intros _. split; [|done].
    apply scan_untouched_or_re in Hs as [-> | Hs]; [done | congruence].
Qed.

End constructor_facts.

(** ** The rewrite loop of the constructor *)

Section loop_facts.
Context `{Collaborators}.
Import http_route.

(** Each turn records one name, and the text left to scan shrinks. *)
Lemma scan_names_bound fuel tmp st st' :
  scan fuel tmp st = Some st' →
  length (scan_names st') ≤ length (scan_names st) + String.length tmp.
Proof.
  revert tmp st. induction fuel as [|fuel IH]; intros tmp st; simpl; [done|].
  destruct (std_regex.regex_search tmp NAMED_PARAM_PARSER) as [found m] eqn:Hs.
  destruct (found && _) eqn:Hc.
  - apply andb_true_iff in Hc as [-> _]. apply token_progress in Hs.
    intros Hscan. apply IH in Hscan. simpl in Hscan.
    rewrite length_app in Hscan. simpl in Hscan. lia.
  - intros [= <-]. lia.
Qed.

Lemma http_route_returns_or_throws path c h meth tr :
  ∃ tr',
    (∃ r, http_route path c h meth tr = (Ret r, tr'))
    ∨ (∃ code what,
         http_route path c h meth tr = (Throw (regex_error code what), tr')).
Proof.
  unfold http_route.
  destruct (scan_total (S (String.length path)) path (Scan false path [] []))
    as [st ->]; [lia|].
  step_M. destruct (scan_is_re st).
  - step_M.
    destruct (std_regex.construct _ (scan_path st) true) as [[code what]|re'].
    + eexists. right. by eexists _, _.
    + eexists. left. by eexists.
  - eexists. left. by eexists.
Qed.

End loop_facts.

(** ** The engine on small inputs *)

Section worked_searches.
Import std_regex.

Example search_is_leftmost_and_folds_case :
  searched "/user/([0-9]+)" "/xx/USER/42/yy"
  = Some (true, Smatch "/xx" [Some "/USER/42"; Some "42"] "/yy").
Proof. reflexivity. Qed.

Example search_backtracks_in_order :
  searched "(a|ab)(c|bcd)(d*)" "zabcdq"
  = Some (true, Smatch "z" [Some "abcd"; Some "a"; Some "bcd"; Some ""] "q").
Proof. reflexivity. Qed.

Example search_leaves_unmatched_groups_empty :
  searched "(?:a|b)+(c)?" "xxabab"
  = Some (true, Smatch "xx" [Some "abab"; None] "").
Proof. reflexivity. Qed.

Example search_anchored :
  searched "^/user/([0-9]+)$" "/xx/user/42" = Some (false, no_match).
Proof. reflexivity. Qed.

Example unclosed_bracket_is_left_to_the_library : compile "([)" true = None.
Proof. reflexivity. Qed.

Example lookahead_is_left_to_the_library :
  compile "/(a(?=b))" true = None ∧ capture_opens "/(a(?=b))" = 1.
Proof. split; reflexivity. Qed.

Example search_counts_repetitions :
  searched "/([0-9]{2})" "/123"
  = Some (true, Smatch "" [Some "/12"; Some "12"] "3").
Proof. reflexivity. Qed.

Example search_lazy_takes_least :
  searched "(a+?)(a*)" "aaa"
  = Some (true, Smatch "" [Some "aaa"; Some "a"; Some "aa"] "").
Proof. reflexivity. Qed.

Example token_search_on_a_template :
  regex_search "/user/:id([0-9]+)/x" NAMED_PARAM_PARSER
  = (true, Smatch "/user/" [Some ":id([0-9]+)"; Some "id"; Some "[0-9]+"] "/x").
Proof. reflexivity. Qed.

Example replace_rewrites_every_occurrence :
  strings.replace "/a/:x(1)/b/:x(1)" ":x(1)" "(1)" = "/a/(1)/b/(1)".
Proof. reflexivity. Qed.

Example literal_match_is_case_sensitive :
  (http_route.matches (literal_route "/Hello" 1 1 ANY)
     (example_request GET "/hello")).1 = false.
Proof. reflexivity. Qed.

End worked_searches.

(** ** The templates of the specification, worked *)

Section example_templates.
Context `{Collaborators}.
Import http_route.

(** A regex route that takes any method, matched against a fresh request
    for [p] (no parameters bound yet). *)
Lemma matches_any_fresh r req :
  is_re r = true → method r = ANY →
  matches r req =
  let '(found, m) := std_regex.regex_search (http_request.path req) (re r) in
  if found && (std_regex.size m =? length (names r) + 1)
  then (true,
        http_request.set_parameters
          (bind_parameters (names r) m (http_request.parameters req)) req)
  else (false, req).
Proof. intros Hre Hm. apply matches_regex; [done | by left]. Qed.

Lemma user_id_template c h tr :
  ∃ r tr',
    http_route "/user/:id([0-9]+)" c h ANY tr = (Ret r, tr')
    ∧ names r = ["id"]
    ∧ (∀ req, http_request.path req = "/user/42" →
              http_request.parameters req = ∅ →
              ∃ req', matches r req = (true, req')
                      ∧ http_request.parameters req' = {["id" := "42"]})
    ∧ (∀ req, http_request.path req = "/user/abc" →
              matches r req = (false, req)).
Proof.
  eexists _, _. split; [vm_compute; reflexivity|]. split; [done|]. split.
  - intros req Hpath Hps. eexists.
    rewrite matches_any_fresh by done. simpl. rewrite Hpath, Hps.
    split; [vm_compute; reflexivity|]. vm_compute. reflexivity.
  - intros req Hpath. rewrite matches_any_fresh by done. simpl.
    rewrite Hpath. vm_compute. reflexivity.
Qed.

Lemma two_parameter_template c h tr :
  ∃ r tr',
    http_route "/:a([a-z]+)/:b([0-9]+)" c h ANY tr = (Ret r, tr')
    ∧ names r = ["a"; "b"]
    ∧ (∀ req, http_request.path req = "/foo/7" →
              http_request.parameters req = ∅ →
              ∃ req', matches r req = (true, req')
                      ∧ http_request.parameters req'
                        = <["a" := "foo"]> {["b" := "7"]}).
Proof.
  eexists _, _. split; [vm_compute; reflexivity|]. split; [done|].
  intros req Hpath Hps. eexists.
  rewrite matches_any_fresh by done. simpl. rewrite Hpath, Hps.
  split; [vm_compute; reflexivity|]. vm_compute. reflexivity.
Qed.

(** A template with a counted repetition. *)
Example counted_template_is_registered :
  ∃ r tr',
    http_route (H:=example_collaborators) "/:id([0-9]{2})" 1 1 ANY []
    = (Ret r, tr')
    ∧ path r = "/([0-9]{2})"
    ∧ names r = ["id"]
    ∧ std_regex.mark_count (re r) = 1
    ∧ (∃ req', matches r (example_request GET "/x/42") = (true, req')
               ∧ http_request.parameters req' = {["id" := "42"]})
    ∧ (matches r (example_request GET "/x/4")).1 = false.
Proof.
  eexists _, _. split; [vm_compute; reflexivity|].
  split_and!; [reflexivity.. | | reflexivity].
  eexists. split; [vm_compute; reflexivity|]. vm_compute. reflexivity.
Qed.

(** A template whose expression is outside the fragment: the route is
    built from what the library answers. *)
Example library_template_is_registered :
  ∃ r tr',
    http_route (H:=example_collaborators) "/:tag([[:alpha:]]+)" 1 1 ANY []
    = (Ret r, tr')
    ∧ path r = "/([[:alpha:]]+)"
    ∧ names r = ["tag"]
    ∧ std_regex.mark_count (re r) = 1
    ∧ (∃ req', matches r (example_request GET "/x/News/7") = (true, req')
               ∧ http_request.parameters req' = {["tag" := "x"]})
    ∧ (matches r (example_request GET "/42")).1 = false.
Proof.
  eexists _, _. split; [vm_compute; reflexivity|].
  split_and!; [reflexivity.. | | reflexivity].
  eexists. split; [vm_compute; reflexivity|]. vm_compute. reflexivity.
Qed.

Lemma groups_bound_to_names r req :
  is_re r = true → matched r req →
  ∃ m,
    std_regex.regex_search (http_request.path req) (re r) = (true, m)
    ∧ std_regex.size m = length (names r) + 1
    ∧ ∀ i name,
        names r !! i = Some name →
        (∀ j, i < j → names r !! j ≠ Some name) →
        http_request.parameters (matches r req).2 !! name
        = Some (std_regex.sub m (S i)).
Proof.
  intros Hre Hm.
  destruct (matched_regex_inv r req Hre Hm) as (m & Hs & Hsize & ->).
  exists m. split_and!; [done | done |]. intros i name Hi Hlast. simpl.
  unfold bind_parameters. apply lookup_lt_Some in Hi as Hlt.
  apply bind_lookup; [done | lia | by intros; apply Hlast | lia].
Qed.

End example_templates.

(** ** [http_consumer::route] *)

Section route_facts.
Context `{Collaborators}.
Import http_consumer.

Lemma route_hit r rest req resp tr :
  matched r req → route (r :: rest) req resp tr = dispatch_to r req resp tr.
Proof.
  unfold matched, dispatch_to. simpl.
  destruct (http_route.matches r req) as [b req']. simpl. intros ->.
  unfold http_route.call, outside. step_M. rewrite <- app_assoc.
  by destruct (invoke _ _ _ _).
Qed.

Lemma route_skip r rest req resp tr :
  ¬ matched r req → route (r :: rest) req resp tr = route rest req resp tr.
Proof.
  unfold matched. intros Hm. apply not_true_is_false in Hm.
  pose proof (matches_false r req Hm) as Hreq. simpl.
  destruct (http_route.matches r req) as [b req']. simpl in *. by subst.
Qed.

Lemma matched_dec r req : Decision (matched r req).
Proof. unfold matched. apply _. Qed.

(** The traversal stops at the first route that matches. *)
Lemma route_first_match routes req resp tr i ri :
  routes !! i = Some ri → matched ri req →
  ∃ k rk,
    k ≤ i ∧ routes !! k = Some rk ∧ matched rk req
    ∧ (∀ k' r', k' < k → routes !! k' = Some r' → ¬ matched r' req)
    ∧ route routes req resp tr = dispatch_to rk req resp tr.
Proof.
  revert i. induction routes as [|r rest IH]; intros i Hi Hm; [done|].
  destruct (matched_dec r req) as [Hr|Hr].
  - exists 0, r. split_and!; [lia | done | done | intros; lia |].
    by apply route_hit.
  - destruct i as [|i]; [by simplify_eq/=|]. simpl in Hi.
    destruct (IH i Hi Hm) as (k & rk & Hk & Hrk & Hmk & Hfirst & Hroute).
    exists (S k), rk. split_and!; [lia | done | done | |].
    + intros [|k'] r' Hlt Hr'; simplify_eq/=; [done|].
      apply (Hfirst k' r'); [lia | done].
    + by rewrite route_skip.
Qed.

Lemma route_none routes req resp tr :
  (∀ r, r ∈ routes → ¬ matched r req) →
  route routes req resp tr
  = (Ret (req, not_found resp), tr ++ [no_route_line req]).
Proof.
  induction routes as [|r rest IH]; intros Hnone.
  - simpl. by step_M.
  - rewrite route_skip by (apply Hnone; left).
    apply IH. intros r' Hr'. apply Hnone. by right.
Qed.

(** Registration appends: the position of a route in the table is the
    order in which it was registered. *)
Lemma http_server_route_appends routes path c h meth tr routes' tr' :
  http_server.route routes path c h meth tr = (Ret routes', tr') →
  ∃ r tr0,
    http_route.http_route path c h meth tr0 = (Ret r, tr')
    ∧ routes' = routes ++ [r].
Proof.
  unfold http_server.route. step_M.
  destruct (http_route.http_route _ _ _ _ _) as [[r| | |] tr1] eqn:Hr;
    try done.
  intros [= <- <-]. eexists r, _. split; [exact Hr | done].
Qed.

Lemma handler_calls_app tr1 tr2 :
  handler_calls (tr1 ++ tr2) = handler_calls tr1 ++ handler_calls tr2.
Proof. apply omap_app. Qed.

Lemma bytes_sent_app tr1 tr2 :
  bytes_sent (tr1 ++ tr2) = bytes_sent tr1 ++ bytes_sent tr2.
Proof. apply omap_app. Qed.

End route_facts.

(** ** [http_consumer::consume] *)

Section consume_facts.
Context `{Collaborators}.
Import http_consumer.

Lemma consume_read_failed routes client tr read req_buffer :
  receive client max_size = (read, req_buffer) → (read ≤ 0)%Z →
  consume routes client tr
  = (Ret tt, tr ++ [connection_line client; Receive max_size read;
                    read_failed_line read]).
Proof.
  intros Hrecv Hread. unfold consume. rewrite Hrecv.
  apply Z.leb_le in Hread. step_M. rewrite Hread. step_M.
  by rewrite <- !app_assoc.
Qed.

Lemma consume_parse_failed routes client tr read req_buffer line :
  receive client max_size = (read, req_buffer) → (0 < read)%Z →
  parse_failure req_buffer read line →
  consume routes client tr
  = (Ret tt, tr ++ [connection_line client; Receive max_size read;
                    read_line read; line]).
Proof.
  intros Hrecv Hread Hparse. unfold consume. rewrite Hrecv.
  apply Z.leb_gt in Hread. step_M. rewrite Hread. step_M.
  unfold try_catch_regex_error.
  destruct Hparse as [request text Hp Htext | code what Hp]; rewrite Hp;
    rewrite ?Htext; step_M; by rewrite <- !app_assoc.
Qed.

(** The slip of line 124: a buffer filled to its last byte has no zero
    byte to end the text that [%s] prints. *)
Lemma consume_parse_failed_unterminated routes client tr read req_buffer
    request :
  receive client max_size = (read, req_buffer) → (0 < read)%Z →
  parse new_request req_buffer read = Ret (false, request) →
  c_string max_size req_buffer = None →
  consume routes client tr
  = (Undefined, tr ++ [connection_line client; Receive max_size read;
                       read_line read]).
Proof.
  intros Hrecv Hread Hparse Htext. unfold consume. rewrite Hrecv.
  apply Z.leb_gt in Hread. step_M. rewrite Hread. step_M.
  unfold try_catch_regex_error. rewrite Hparse, Htext. simpl.
  by rewrite <- !app_assoc.
Qed.

(** Whatever [parse] does other than return, [consume] ends the same way,
    a [std::regex_error] apart. *)
Lemma consume_parse_escapes routes client tr read req_buffer
    (o : outcome (bool * http_request.t)) (o' : outcome unit) :
  receive client max_size = (read, req_buffer) → (0 < read)%Z →
  parse new_request req_buffer read = o →
  match o, o' with
  | Throw (other_exception what), Throw (other_exception what') => what = what'
  | Diverge, Diverge | Undefined, Undefined => True
  | _, _ => False
  end →
  consume routes client tr
  = (o', tr ++ [connection_line client; Receive max_size read;
                read_line read]).
Proof.
  intros Hrecv Hread Hparse Ho. unfold consume. rewrite Hrecv.
  apply Z.leb_gt in Hread. step_M. rewrite Hread. step_M.
  unfold try_catch_regex_error. rewrite Hparse.
  destruct o as [?|[? ?|what]| |], o' as [?|[? ?|what']| |]; try done;
    simpl; rewrite <- !app_assoc; simpl; by subst.
Qed.

Lemma run_cons routes client queue tr tr' :
  consume routes client tr = (Ret tt, tr') →
  run routes (client :: queue) tr = run routes queue tr'.
Proof. intros Hc. simpl. step_M. by rewrite Hc. Qed.

End consume_facts.

(** ** The worker keeps no state between connections *)

Section frame_facts.
Context `{Collaborators}.
Import http_consumer.

Lemma framed_ret {A} (a : A) : framed (mret a).
Proof. intros tr. step_M. by rewrite app_nil_r. Qed.

Lemma framed_emit_all es : framed (emit_all es).
Proof. intros tr. by step_M. Qed.

Lemma framed_log lvl fmt args : framed (log lvl fmt args).
Proof. apply framed_emit_all. Qed.

Lemma framed_throw {A} e : framed (throw (A:=A) e).
Proof. intros tr. step_M. by rewrite app_nil_r. Qed.

Lemma framed_bind {A B} (m : M A) (f : A → M B) :
  framed m → (∀ a, framed (f a)) → framed (m ≫= f).
Proof.
  intros Hm Hf tr. unfold mbind, M_bind.
  rewrite (Hm tr). destruct (m []) as [[a|e| |] es]; simpl; try done.
  rewrite (Hf a (tr ++ es)), (Hf a es). simpl. by rewrite app_assoc.
Qed.

Lemma framed_outside {A} (o : outcome A) : framed (outside o).
Proof. intros tr. unfold outside. simpl. by rewrite app_nil_r. Qed.

Lemma framed_try_catch {A} (body : M A) (handler : Z → string → M A) :
  framed body → (∀ code what, framed (handler code what)) →
  framed (try_catch_regex_error body handler).
Proof.
  intros Hb Hh tr. unfold try_catch_regex_error.
  rewrite (Hb tr). destruct (body []) as [[a|[code what|what]| |] es];
    simpl; try done.
  rewrite (Hh code what (tr ++ es)), (Hh code what es). simpl.
  by rewrite app_assoc.
Qed.

Lemma framed_route routes req resp : framed (route routes req resp).
Proof.
  revert req. induction routes as [|r rest IH]; intros req; simpl.
  - apply framed_bind; [apply framed_log | intros; apply framed_ret].
  - destruct (http_route.matches r req) as [[] req']; [|apply IH].
    apply framed_bind; [apply framed_log | intros _].
    apply framed_bind; [apply framed_emit_all | intros; apply framed_outside].
Qed.

Lemma framed_consume routes client : framed (consume routes client).
Proof.
  unfold consume.
  apply framed_bind; [apply framed_log | intros _].
  destruct (receive client max_size) as [read req_buffer].
  apply framed_bind; [apply framed_emit_all | intros _].
  destruct (read <=? 0)%Z; [apply framed_log|].
  apply framed_bind; [apply framed_log | intros _].
  apply framed_bind.
  - apply framed_try_catch.
    + destruct (parse new_request req_buffer read) as [[[] request]|e| |].
      * intros tr. by rewrite app_nil_r.
      * destruct (c_string max_size req_buffer) as [text|].
        -- apply framed_bind; [apply framed_log | intros; apply framed_ret].
        -- intros tr. by rewrite app_nil_r.
      * apply framed_throw.
      * intros tr. by rewrite app_nil_r.
      * intros tr. by rewrite app_nil_r.
    + intros code what.
      apply framed_bind; [apply framed_log | intros; apply framed_ret].
  - intros [request|]; [|apply framed_ret].
    apply framed_bind; [apply framed_route | intros [request' response]].
    apply framed_bind; [apply framed_emit_all | intros _].
    destruct (bool_decide _); [apply framed_log | apply framed_ret].
Qed.

Lemma framed_run routes queue : framed (run routes queue).
Proof.
  induction queue as [|client queue IH]; simpl.
  - apply framed_ret.
  - apply framed_bind; [apply framed_consume | by intros _].
Qed.

End frame_facts.

(** ** The token parser finds the leftmost token *)

Section leftmost_token.
Import std_regex.

Lemma str_app_inj_length (u v s t : string) :
  u +:+ s = v +:+ t → String.length u = String.length v → u = v ∧ s = t.
Proof.
  revert v. induction u as [|c u IH]; intros [|d v]; try done.
  rewrite !str_app_cons. simpl. intros [= -> Heq] [= Hlen].
  destruct (IH v Heq Hlen) as [-> ->]. done.
Qed.

Lemma token_at_unique name expr after name' expr' after' here :
  token_at name expr after here → token_at name' expr' after' here →
  name = name' ∧ expr = expr' ∧ after = after'.
Proof.
  intros Ht Ht'.
  pose proof (match_here_token_found 0 _ _ _ _ Ht) as Hm.
  rewrite (match_here_token_found 0 _ _ _ _ Ht') in Hm.
  by injection Hm as -> -> ->.
Qed.

(** What the search returns for a text whose leftmost token is known. *)
Lemma token_search_leftmost tmp before here name expr after :
  tmp = before +:+ here → token_at name expr after here →
  (∀ before' here' name' expr' after',
     tmp = before' +:+ here' → token_at name' expr' after' here' →
     String.length before ≤ String.length before') →
  regex_search tmp NAMED_PARAM_PARSER
  = (true, Smatch before
             [Some (":" +:+ name +:+ "(" +:+ expr +:+ ")");
              Some name; Some expr] after).
Proof.
  intros Htmp Htok Hleft.
  assert (has_token tmp) as Hhas by (by exists before, name, expr, after, here).
  apply token_search_finds in Hhas.
  destruct (regex_search tmp NAMED_PARAM_PARSER) as [found m] eqn:Hs.
  simpl in Hhas. subst found.
  apply token_search_found in Hs
    as (name' & expr' & here' & Htmp' & Htok' & Hsubs & Hleft').
  assert (String.length (prefix m) = String.length before) as Hlen.
  { apply Nat.le_antisymm; [by eapply Hleft' | by eapply Hleft]. }
  rewrite Htmp in Htmp'. symmetry in Htmp'.
  apply str_app_inj_length in Htmp' as [Hp ->]; [|done].
  destruct (token_at_unique _ _ _ _ _ _ _ Htok Htok') as (-> & -> & ->).
  destruct m as [p sb sf]. simpl in *. by subst.
Qed.

End leftmost_token.

(** ** What the constructor records *)

Section constructor_records.
Context `{Collaborators}.
Import http_route.

Lemma token_at_shorter name expr after here :
  token_at name expr after here → String.length after < String.length here.
Proof.
  intros (-> & _). repeat (rewrite str_length_app; simpl). lia.
Qed.

(** The loop takes the tokens of the text from left to right. *)
Lemma scan_tokens tmp toks :
  tokens_of tmp toks →
  ∀ fuel st,
    String.length tmp < fuel →
    ∃ st',
      scan fuel tmp st = Some st'
      ∧ scan_names st' = scan_names st ++ toks.*1
      ∧ (toks = [] → st' = st)
      ∧ (toks ≠ [] → scan_is_re st' = true).
Proof.
  induction 1 as [P Hnone | P before here name expr after rest HP Htok Hleft
                             Hrest IH]; intros fuel st Hfuel.
  - destruct fuel as [|fuel]; [lia|]. exists st.
    rewrite scan_literal by (by apply literal_template_iff).
    simpl. by rewrite app_nil_r.
  - destruct fuel as [|fuel]; [lia|]. simpl.
    rewrite (token_search_leftmost P _ _ _ _ _ HP Htok Hleft). simpl.
    assert (String.length after < fuel) as Hafter.
    { apply token_at_shorter in Htok. subst P.
      rewrite str_length_app in Hfuel. lia. }
    destruct (IH fuel (scan_step P
                 (std_regex.Smatch before
                    [Some (":" +:+ name +:+ "(" +:+ expr +:+ ")");
                     Some name; Some expr] after) st) Hafter)
      as (st' & Hscan & Hnames & Hnil & Hre).
    exists st'. split_and!; [done | | done |].
    + rewrite Hnames. simpl. by rewrite <- app_assoc.
    + intros _. apply scan_untouched_or_re in Hscan as [-> | Hscan]; done.
Qed.

Lemma tokens_found_sound fuel P toks :
  tokens_found fuel P = Some toks → tokens_of P toks.
Proof.
  revert P toks. induction fuel as [|fuel IH]; intros P toks; simpl; [done|].
  destruct (std_regex.regex_search P NAMED_PARAM_PARSER) as [found m] eqn:Hs.
  destruct found.
  - destruct (tokens_found fuel (std_regex.suffix m)) as [rest|] eqn:Hrest;
      [|done].
    simpl. intros [= <-].
    apply token_search_found in Hs
      as (name & expr & here & HP & Htok & Hsubs & Hleft).
    unfold std_regex.sub. rewrite Hsubs. simpl.
    eapply tokens_next; [exact HP | exact Htok | exact Hleft | by apply IH].
  - intros [= <-]. apply tokens_none. apply literal_template_iff.
    unfold literal_template. by rewrite Hs.
Qed.

Lemma scan_has_token fuel P st st' :
  has_token P → scan fuel P st = Some st' → scan_is_re st' = true.
Proof.
  intros Hhas. apply has_token_iff in Hhas.
  destruct fuel as [|fuel]; [done|]. simpl.
  destruct (std_regex.regex_search P NAMED_PARAM_PARSER) as [found m] eqn:Hs.
  simpl in Hhas. subst found. rewrite (token_groups P m Hs). simpl.
  intros Hscan. by apply scan_untouched_or_re in Hscan as [-> | Hscan].
Qed.

End constructor_records.

(** ** The groups of a pattern and the rewriting of tokens *)

Section group_text.
Import std_regex.

Lemma opens_from_app q u v :
  opens_from q (u +:+ v)
  = opens_within q u + opens_from (pstate_after q u) v.
Proof.
  revert q. induction u as [|c u IH]; intros q; [done|].
  rewrite str_app_cons. simpl. rewrite IH. lia.
Qed.

Lemma opens_within_app q u v :
  opens_within q (u +:+ v)
  = opens_within q u + opens_within (pstate_after q u) v.
Proof.
  revert q. induction u as [|c u IH]; intros q; [done|].
  rewrite str_app_cons. simpl. rewrite IH. lia.
Qed.

Lemma pstate_after_app q u v :
  pstate_after q (u +:+ v) = pstate_after (pstate_after q u) v.
Proof.
  revert q. induction u as [|c u IH]; intros q; [done|].
  rewrite str_app_cons. simpl. by rewrite IH.
Qed.

Lemma colons_plain_from_app q u v :
  colons_plain_from q (u +:+ v)
  = colons_plain_from q u && colons_plain_from (pstate_after q u) v.
Proof.
  revert q. induction u as [|c u IH]; intros q; [done|].
  rewrite str_app_cons. simpl. rewrite IH. by rewrite andb_assoc.
Qed.

Lemma name_char_kind c :
  name_char c = true → kind_of c = KOther ∨ kind_of c = KDigit.
Proof.
  destruct c as [[] [] [] [] [] [] [] []]; vm_compute; intros Hc;
    (discriminate || auto).
Qed.

(** The characters of a name change nothing, in a bracket expression or
    out of one. *)
Lemma name_read q name :
  q = PNormal ∨ q = PBracket →
  all_chars name_char name = true →
  pstate_after q name = q ∧ opens_within q name = 0
  ∧ colons_plain_from q name = true.
Proof.
  intros Hq. induction name as [|c name IH]; [done|]. simpl.
  intros [Hc Hname]%andb_true_iff. apply name_char_kind in Hc.
  assert ((pstep q c) = (q, 0)) as ->.
  { destruct Hq as [-> | ->], Hc as [Hc | Hc]; simpl;
      unfold pstep_normal, pstep_bracket; by rewrite Hc. }
  assert (is_colon c = false) as ->.
  { unfold is_colon. by destruct Hc as [-> | ->]. }
  simpl. by apply IH.
Qed.

(** From a place where a colon is an ordinary character, [:name(] reads
    as [(] does. *)
Lemma token_head_read q name :
  colon_safe q = true → all_chars name_char name = true →
  pstate_after q (":" +:+ name +:+ "(") = pstate_after q "("
  ∧ opens_within q (":" +:+ name +:+ "(") = opens_within q "(".
Proof.
  intros Hq Hname. rewrite str_app_cons, str_app_nil_l.
  assert (∀ q', q' = PNormal ∨ q' = PBracket →
            pstate_after q' (name +:+ "(") = (pstep q' "(").1
            ∧ opens_within q' (name +:+ "(") = 0) as Hrest.
  { intros q' Hq'.
    destruct (name_read q' name Hq' Hname) as (Ha & Hw & _).
    rewrite pstate_after_app, opens_within_app, Ha, Hw.
    by destruct Hq' as [-> | ->]. }
  destruct q; try done; cbn [pstate_after opens_within].
  - change (pstep PNormal ":") with (PNormal, 0). cbn [fst snd].
    by destruct (Hrest PNormal (or_introl eq_refl)) as [-> ->].
  - change (pstep POpen ":") with (PNormal, 1).
    change (pstep POpen "(") with (POpen, 1). cbn [fst snd].
    by destruct (Hrest PNormal (or_introl eq_refl)) as [-> ->].
  - change (pstep PBracket ":") with (PBracket, 0). cbn [fst snd].
    by destruct (Hrest PBracket (or_intror eq_refl)) as [-> ->].
Qed.

End group_text.

(** ** [strings::replace], occurrence by occurrence *)

Section replace_facts.

Lemma starts_with_split p s :
  str.starts_with p s = true → ∃ rest, s = p +:+ rest.
Proof.
  revert s. induction p as [|a p IH]; intros s; [by exists s|].
  destruct s as [|b s]; [done|]. simpl.
  intros [Hab Hp]%andb_true_iff. apply Ascii.eqb_eq in Hab as ->.
  apply IH in Hp as [rest ->]. by exists rest.
Qed.

Lemma replace_from_skipped u rest from to :
  strings.replace_from (String.length u) (u +:+ rest) from to
  = strings.replace_from 0 rest from to.
Proof.
  induction u as [|c u IH]; [done|]. rewrite str_app_cons. simpl.
  apply IH.
Qed.

Lemma replace_from_cons c s from to :
  strings.replace_from 0 (String c s) from to
  = if str.starts_with from (String c s)
    then to +:+ strings.replace_from (String.length from - 1) s from to
    else String c (strings.replace_from 0 s from to).
Proof. reflexivity. Qed.

(** An occurrence at the head of the text is rewritten, and the
    rewriting goes on behind it. *)
Lemma replace_from_occurrence a from' rest to :
  strings.replace_from 0 (String a from' +:+ rest) (String a from') to
  = to +:+ strings.replace_from 0 rest (String a from') to.
Proof.
  rewrite str_app_cons, replace_from_cons.
  assert (str.starts_with (String a from') (String a (from' +:+ rest)) = true)
    as ->.
  { simpl. rewrite Ascii.eqb_refl. simpl.
    clear. induction from' as [|b p IH]; [done|].
    rewrite str_app_cons. simpl. by rewrite Ascii.eqb_refl. }
  simpl. rewrite Nat.sub_0_r. by rewrite replace_from_skipped.
Qed.

End replace_facts.

(** ** Rewriting a token keeps the groups of the path *)

Section rewrite_groups.
Import std_regex.

Lemma replace_keeps_groups name expr n :
  all_chars name_char name = true →
  ∀ s q,
    String.length s ≤ n → colons_plain_from q s = true →
    opens_from q
      (strings.replace_from 0 s (":" +:+ name +:+ "(" +:+ expr +:+ ")")
         ("(" +:+ expr +:+ ")"))
    = opens_from q s
    ∧ colons_plain_from q
        (strings.replace_from 0 s (":" +:+ name +:+ "(" +:+ expr +:+ ")")
           ("(" +:+ expr +:+ ")"))
      = true.
Proof.
  intros Hname.
  assert (∃ tok to head body,
            tok = ":" +:+ name +:+ "(" +:+ expr +:+ ")"
            ∧ to = "(" +:+ expr +:+ ")"
            ∧ head = ":" +:+ name +:+ "("
            ∧ body = expr +:+ ")"
            ∧ tok = head +:+ body ∧ to = "(" +:+ body
            ∧ tok = String ":" (name +:+ "(" +:+ expr +:+ ")"))
    as (tok & to & head & body & <- & <- & Hhead & Hbody & Htok & Hto & Hcons).
  { eexists _, _, _, _. split_and!; try reflexivity.
    by rewrite !str_app_assoc. }
  induction n as [|n IH]; intros s q Hlen Hplain.
  { destruct s; [done | simpl in Hlen; lia]. }
  destruct s as [|c s]; [done|].
  destruct (str.starts_with tok (String c s)) eqn:Hocc.
  - apply starts_with_split in Hocc as [rest Hs]. rewrite Hs in *.
    assert (String.length rest ≤ n) as Hrest.
    { rewrite Hcons, str_app_cons in Hlen. simpl in Hlen.
      rewrite str_length_app in Hlen. lia. }
    assert (colon_safe q = true) as Hq.
    { rewrite Hcons, str_app_cons in Hplain. simpl in Hplain.
      by apply andb_true_iff in Hplain as [? _]. }
    destruct (token_head_read q name Hq Hname) as [Hafter Hwithin].
    rewrite <- Hhead in Hafter, Hwithin.
    rewrite Htok, str_app_assoc, !colons_plain_from_app in Hplain.
    apply andb_true_iff in Hplain as [_ Hplain].
    apply andb_true_iff in Hplain as [Hplain_body Hplain].
    rewrite Hafter in Hplain_body, Hplain.
    destruct (IH rest _ Hrest Hplain) as [Hopens Hkept].
    assert (strings.replace_from 0 (tok +:+ rest) tok to
            = to +:+ strings.replace_from 0 rest tok to) as ->.
    { rewrite Hcons. apply replace_from_occurrence. }
    revert Hopens Hkept.
    generalize (strings.replace_from 0 rest tok to). intros R Hopens Hkept.
    rewrite Htok, Hto, !str_app_assoc.
    rewrite !opens_from_app, !colons_plain_from_app, Hafter, Hwithin.
    rewrite Hopens, Hkept, Hplain_body. split; [done|].
    by destruct q.
  - rewrite replace_from_cons, Hocc. simpl in Hplain, Hlen |- *.
    apply andb_true_iff in Hplain as [Hc Hplain].
    destruct (IH s _ ltac:(lia) Hplain) as [Hopens Hkept].
    by rewrite Hopens, Hkept, Hc.
Qed.

Lemma scan_keeps_groups fuel tmp st st' :
  http_route.scan fuel tmp st = Some st' →
  colons_plain (http_route.scan_path st) →
  capture_opens (http_route.scan_path st')
  = capture_opens (http_route.scan_path st)
  ∧ colons_plain (http_route.scan_path st').
Proof.
  revert tmp st. induction fuel as [|fuel IH]; intros tmp st; simpl; [done|].
  destruct (regex_search tmp NAMED_PARAM_PARSER) as [found m] eqn:Hs.
  destruct (found && _) eqn:Hc; [|by intros [= <-]].
  apply andb_true_iff in Hc as [-> _].
  apply token_search_found in Hs
    as (name & expr & here & _ & (_ & _ & Hname & _) & Hsubs & _).
  intros Hscan Hplain. apply IH in Hscan.
  - destruct Hscan as [-> Hkept]. split; [|done].
    unfold http_route.scan_step, sub. rewrite Hsubs. simpl.
    unfold capture_opens.
    by destruct (replace_keeps_groups name expr _ Hname
                   (http_route.scan_path st) PNormal (le_n _) Hplain)
      as [-> _].
  - unfold http_route.scan_step, sub. rewrite Hsubs. simpl.
    by destruct (replace_keeps_groups name expr _ Hname
                   (http_route.scan_path st) PNormal (le_n _) Hplain)
      as [_ ?].
Qed.

End rewrite_groups.

(** ** The groups the parser numbers are the parentheses of the text *)

Section group_count_of_text.
Import std_regex.

Lemma parse_count ts top stack next r n :
  parse ts top stack next = Some (r, n) → n = next + count_opens ts.
Proof.
  revert top stack next.
  induction ts as [|t ts IH]; intros top stack next; simpl.
  - destruct stack; [|done]. intros [= _ <-]. lia.
  - destruct t as [a | a | [] | | | lz | lz | lz | lo hi lz]; simpl.
    + apply IH.
    + apply IH.
    + intros Hp. apply IH in Hp. lia.
    + apply IH.
    + destruct stack as [|parent stack]; [done | apply IH].
    + apply IH.
    + destruct (quantify _ top); [apply IH | done].
    + destruct (quantify _ top); [apply IH | done].
    + destruct (quantify _ top); [apply IH | done].
    + destruct (quantify _ top); [apply IH | done].
Qed.

Lemma escape_no_control d : is_Some (escape_item d) → Ascii.eqb d "c" = false.
Proof.
  intros Hd. destruct (Ascii.eqb d "c") eqn:Hc; [|done].
  apply Ascii.eqb_eq in Hc as ->. by destruct Hd.
Qed.

Lemma escape_atom_item d a : escape_atom d = Some a → is_Some (escape_item d).
Proof. unfold escape_atom. destruct (escape_item d); [by eexists | done]. Qed.

(** After a parenthesis, anything but [?] makes it a group. *)
Lemma opens_from_open s :
  match s with
  | String d _ => kind_of d ≠ KQuest
  | EmptyString => True
  end →
  opens_from POpen s = S (opens_from PNormal s).
Proof.
  destruct s as [|d s]; [done|]. simpl. intros Hd.
  by destruct (kind_of d).
Qed.

Ltac lex_step H :=
  match type of H with
  | (?m ≫= _) = Some _ =>
      let ts := fresh "ts" in
      let E := fresh "E" in
      destruct m as [ts|] eqn:E; [|done]; simpl in H
  end.

(** A quantifier and the [?] that may follow it open no group. *)
Lemma marked_opens n (T : bool → token) s' ts :
  (∀ b ts', count_opens (T b :: ts') = count_opens ts') →
  (∀ s mode ts',
     String.length s ≤ n → lex mode s = Some ts' →
     opens_from (pstate_of mode) s = count_opens ts') →
  String.length s' ≤ n →
  match s' with
  | String q s'' =>
      match kind_of q with
      | KQuest => ts' ← lex LNormal s''; Some (T true :: ts')
      | _ => ts' ← lex LNormal s'; Some (T false :: ts')
      end
  | EmptyString => Some [T false]
  end = Some ts →
  opens_from PNormal s' = count_opens ts.
Proof.
  intros Hcount IH Hlen.
  destruct s' as [|q s'']; [intros [= <-]; by rewrite Hcount|].
  destruct (kind_of q) eqn:Hq; intros Hl; lex_step Hl; injection Hl as <-;
    rewrite Hcount;
    try (apply (IH (String q s'') LNormal); [done | done]).
  cbn [opens_from pstep]. unfold pstep_normal. rewrite Hq. cbn [fst snd].
  simpl in Hlen. apply (IH s'' LNormal); [lia | done].
Qed.

Lemma lex_opens n :
  ∀ s mode ts,
    String.length s ≤ n → lex mode s = Some ts →
    opens_from (pstate_of mode) s = count_opens ts.
Proof.
  induction n as [|n IH]; intros s mode ts Hlen.
  { destruct s; [|simpl in Hlen; lia]. destruct mode; try done.
    by intros [= <-]. }
  destruct s as [|c s]; [destruct mode; [by intros [= <-] | done..]|].
  simpl in Hlen.
  assert (String.length s ≤ n) as Hs by lia.
  destruct mode as [|neg items|count|lo count];
    cbn [lex pstate_of opens_from pstep].
  - unfold pstep_normal.
    destruct (kind_of c) eqn:Hc; cbn [fst snd Nat.add]; intros Hl;
      try done;
      try (lex_step Hl; injection Hl as <-; cbn [count_opens];
           apply (IH s LNormal); [lia | done]);
      try (by apply (marked_opens n _ s ts) in Hl).
    + (* backslash *)
      destruct s as [|d s]; [done|]. lex_step Hl. lex_step Hl.
      injection Hl as <-. cbn [opens_from pstep count_opens].
      rewrite (escape_no_control d) by (by eapply escape_atom_item).
      cbn [fst snd pafter]. simpl in Hlen.
      apply (IH s LNormal); [lia | done].
    + (* bracket *)
      destruct s as [|d s]; [done|]. simpl in Hlen.
      destruct (kind_of d) eqn:Hd;
        try (apply (IH (String d s) (LClass false [])); [simpl; lia | done]).
      cbn [opens_from pstep]. unfold pstep_bracket. rewrite Hd.
      cbn [fst snd]. apply (IH s (LClass true [])); [lia | done].
    + (* parenthesis *)
      destruct s as [|d s]; [by injection Hl as <-|]. simpl in Hlen.
      destruct (kind_of d) eqn:Hd;
        try (lex_step Hl; injection Hl as <-; cbn [count_opens];
             rewrite opens_from_open by (simpl; by rewrite Hd);
             cbn [Nat.add]; f_equal;
             apply (IH (String d s) LNormal); [simpl; lia | done]).
      destruct s as [|e s]; [by simpl in Hl|]. simpl in Hlen.
      destruct (kind_of e) eqn:He; try (by simpl in Hl).
      cbn beta iota in Hl. lex_step Hl. injection Hl as <-.
      cbn [opens_from pstep count_opens]. rewrite Hd.
      cbn [opens_from pstep fst snd]. unfold pstep_normal. rewrite He.
      cbn [fst snd].
      apply (IH s LNormal); [lia | done].
    + (* brace *)
      apply (IH s (LMin None)); [lia | done].
  - unfold pstep_bracket.
    assert (∀ its ts',
              lex (LClass neg its) s = Some ts' →
              opens_from PBracket s = count_opens ts') as Hclass.
    { intros its ts'. apply (IH s (LClass neg its)). lia. }
    assert (∀ its,
              match s with
              | String d (String e s3) =>
                  match kind_of d, kind_of e with
                  | KDash, KRBracket =>
                      ts ← lex LNormal s3;
                      Some (TAtom (RClass neg
                                     (rev (CChar "-" :: CChar c :: its)))
                            :: ts)
                  | KDash, (KBackslash | KLBracket) => None
                  | KDash, _ =>
                      if chars.code c <=? chars.code e
                      then lex (LClass neg (CRange c e :: its)) s3
                      else None
                  | _, _ => lex (LClass neg (CChar c :: its)) s
                  end
              | _ => lex (LClass neg (CChar c :: its)) s
              end = Some ts →
              opens_from PBracket s = count_opens ts) as Hitem.
    { intros its. clear Hs.
      destruct s as [|d [|e s]]; [apply Hclass | apply Hclass |].
      simpl in Hlen.
      destruct (kind_of d) eqn:Hd; try apply Hclass.
      cbn [opens_from pstep]. unfold pstep_bracket. rewrite Hd.
      cbn [pstep fst snd]. unfold pstep_bracket.
      destruct (kind_of e) eqn:He; cbn [fst snd Nat.add]; try done;
        try (destruct (_ <=? _); [|done];
             intros Hl; apply (IH s (LClass neg (CRange c e :: its)));
             [lia | done]).
      intros Hl. lex_step Hl. injection Hl as <-. cbn [count_opens].
      apply (IH s LNormal); [lia | done]. }
    destruct (kind_of c) eqn:Hc; cbn [fst snd]; intros Hl;
      try (by apply (Hitem items)).
    + (* backslash *)
      destruct s as [|d s]; [done|]. lex_step Hl.
      destruct (opens_range s); [done|].
      cbn [opens_from pstep].
      rewrite (escape_no_control d) by (by eexists).
      cbn [fst snd pafter]. simpl in Hlen.
      apply (IH s (LClass neg (ts0 :: items))); [lia | done].
    + done.
    + (* closing bracket *)
      lex_step Hl. injection Hl as <-. cbn [count_opens].
      apply (IH s LNormal); [lia | done].
  - unfold pstep_normal.
    destruct (kind_of c) eqn:Hc, count as [lo|];
      cbn [fst snd Nat.add]; intros Hl; try done;
      try (by apply (marked_opens n _ s ts) in Hl);
      try (lex_step Hl; eapply (IH s (LMin _)); [lia | exact Hl]).
    apply (IH s (LMax lo None)); [lia | done].
  - unfold pstep_normal.
    destruct (kind_of c) eqn:Hc; cbn [fst snd Nat.add]; intros Hl;
      try done.
    + destruct (_ <? lo); [done|].
      by apply (marked_opens n _ s ts) in Hl.
    + lex_step Hl. eapply (IH s (LMax lo _)); [lia | exact Hl].
Qed.

(** [mark_count()] of a pattern of the fragment is the number of its
    capturing parentheses. *)
Lemma compile_mark_count pattern ic re :
  compile pattern ic = Some re → mark_count re = capture_opens pattern.
Proof.
  unfold compile. destruct (all_chars printable pattern); [|done].
  destruct (lex LNormal pattern) as [ts|] eqn:Hlex; [|done]. simpl.
  destruct (parse ts _ _ _) as [[r n]|] eqn:Hparse; [|done]. simpl.
  destruct (star_safe r && _); [|done]. intros [= <-]. simpl.
  apply parse_count in Hparse. subst n. symmetry.
  by apply (lex_opens _ pattern LNormal ts (le_n _)).
Qed.

Lemma compile_icase pattern ic re :
  compile pattern ic = Some re → icase re = ic.
Proof.
  unfold compile. destruct (all_chars printable pattern); [|done].
  destruct (lex LNormal pattern) as [ts|]; [|done]. simpl.
  destruct (parse ts _ _ _) as [[r n]|]; [|done]. simpl.
  destruct (star_safe r && _); [|done]. by intros [= <-].
Qed.

(** Whatever [std::regex] builds has [icase] set as asked and as many
    groups as its pattern has capturing parentheses. *)
Lemma construct_facts library pattern ic re :
  construct library pattern ic = inr re →
  icase re = ic ∧ mark_count re = capture_opens pattern.
Proof.
  unfold construct.
  destruct (compile pattern ic) as [re'|] eqn:Hc.
  - intros [= <-]. split; [by eapply compile_icase | by eapply compile_mark_count].
  - destruct (library pattern ic) as [e|f]; [done|]. by intros [= <-].
Qed.

End group_count_of_text.

(** ** Registration and dispatch together *)

Section registration_facts.
Context `{Collaborators}.
Import http_consumer.

(** Routes registered after one that matches are never reached. *)
Lemma route_app_matched routes later req resp tr :
  (∃ r, r ∈ routes ∧ matched r req) →
  route (routes ++ later) req resp tr = route routes req resp tr.
Proof.
  induction routes as [|r0 routes IH]; intros (r & Hin & Hm).
  - by apply elem_of_nil in Hin.
  - rewrite <- app_comm_cons.
    destruct (matched_dec r0 req) as [Hr0 | Hr0].
    + by rewrite !route_hit.
    + rewrite !route_skip by done. apply IH.
      apply elem_of_cons in Hin as [-> | Hin]; [done | by exists r].
Qed.

(** With no match among the earlier routes, the route registered last
    decides. *)
Lemma route_app_unmatched routes later req resp tr :
  (∀ r, r ∈ routes → ¬ matched r req) →
  route (routes ++ later) req resp tr = route later req resp tr.
Proof.
  induction routes as [|r0 routes IH]; intros Hnone; [done|].
  rewrite <- app_comm_cons, route_skip by (apply Hnone; left).
  apply IH. intros r Hr. apply Hnone. by right.
Qed.

End registration_facts.

(** ** What a successful match writes *)

Section binding_frame.
Import http_route.

Lemma bind_lookup_other names m (ps : gmap string string) n name :
  name ∉ names → n ≤ length names →
  foldl (bind_one names m) ps (seq 1 n) !! name = ps !! name.
Proof.
  intros Hout. induction n as [|n IH]; intros Hn; [done|].
  rewrite bind_step.
  destruct (lookup_lt_is_Some_2 names n) as [key Hkey]; [lia|].
  rewrite Hkey. simpl. rewrite lookup_insert_ne; [apply IH; lia|].
  intros ->. apply Hout. by eapply list_elem_of_lookup_2.
Qed.

Lemma bind_lookup_bound names m (ps : gmap string string) n i name :
  names !! i = Some name → i < n → n ≤ length names →
  is_Some (foldl (bind_one names m) ps (seq 1 n) !! name).
Proof.
  intros Hi. induction n as [|n IH]; intros Hlt Hn; [lia|].
  rewrite bind_step.
  destruct (lookup_lt_is_Some_2 names n) as [key Hkey]; [lia|].
  rewrite Hkey. simpl.
  destruct (decide (key = name)) as [->|Hne].
  - rewrite lookup_insert_eq. by eexists.
  - rewrite lookup_insert_ne by done. apply IH; [|lia].
    destruct (decide (i = n)) as [->|]; [congruence | lia].
Qed.

End binding_frame.

(** ** One request, one reply *)

Section reply_facts.
Context `{Collaborators}.
Import http_consumer.

Lemma reads_app tr1 tr2 : reads (tr1 ++ tr2) = reads tr1 ++ reads tr2.
Proof. apply omap_app. Qed.

(** [route] has dispatched to the first route that matches, or found
    none. *)
Lemma route_outcome routes req resp tr :
  (∃ k rk,
     routes !! k = Some rk ∧ matched rk req
     ∧ (∀ k' r', k' < k → routes !! k' = Some r' → ¬ matched r' req)
     ∧ route routes req resp tr = dispatch_to rk req resp tr)
  ∨ ((∀ r, r ∈ routes → ¬ matched r req)
     ∧ route routes req resp tr
       = (Ret (req, not_found resp), tr ++ [no_route_line req])).
Proof.
  assert ((∃ i ri, routes !! i = Some ri ∧ matched ri req)
          ∨ (∀ r, r ∈ routes → ¬ matched r req)) as [(i & ri & Hi & Hm) | Hnone].
  { induction routes as [|r0 routes IH]; [right; by intros r ?%elem_of_nil|].
    destruct (matched_dec r0 req) as [Hr0 | Hr0]; [left; by exists 0, r0|].
    destruct IH as [(i & ri & Hi & Hm) | Hnone]; [left; by exists (S i), ri|].
    right. intros r [-> | Hr]%elem_of_cons; [done | by apply Hnone]. }
  - left.
    destruct (route_first_match routes req resp tr i ri Hi Hm)
      as (k & rk & _ & Hrk & Hmk & Hfirst & Hroute).
    by exists k, rk.
  - right. split; [done|]. by apply route_none.
Qed.

Lemma route_events routes req resp tr :
  ∃ o es,
    route routes req resp tr = (o, tr ++ es)
    ∧ bytes_sent es = [] ∧ reads es = []
    ∧ length (handler_calls es) ≤ 1.
Proof.
  destruct (route_outcome routes req resp tr)
    as [(k & rk & _ & _ & _ & ->) | [_ ->]].
  - unfold dispatch_to. eexists _, _.
    split; [done|]. simpl. split_and!; [done | done | lia].
  - eexists _, _. split; [done|]. simpl. split_and!; [done | done | lia].
Qed.

(** [consume] once the request is parsed: it routes the request and
    replies. *)
Lemma consume_parsed routes client tr read req_buffer request o es :
  receive client max_size = (read, req_buffer) → (0 < read)%Z →
  parse new_request req_buffer read = Ret (true, request) →
  route routes request new_response [] = (o, es) →
  consume routes client tr
  = ((reply client o).1,
     tr ++ [connection_line client; Receive max_size read; read_line read]
        ++ es ++ (reply client o).2).
Proof.
  intros Hrecv Hread Hparse Hroute.
  unfold consume. rewrite Hrecv. apply Z.leb_gt in Hread.
  step_M. rewrite Hread. step_M. unfold try_catch_regex_error.
  rewrite Hparse. step_M. rewrite framed_route, Hroute. simpl.
  destruct o as [[req' resp]|e| |]; simpl;
    rewrite <- ?app_assoc; simpl; rewrite ?app_nil_r; try done.
  step_M. unfold short_write_line. destruct (bool_decide _); step_M;
    rewrite <- ?app_assoc; simpl; by rewrite <- ?app_assoc.
Qed.

Lemma route_at_first_match routes req resp tr k rk :
  routes !! k = Some rk → matched rk req →
  (∀ k' r', k' < k → routes !! k' = Some r' → ¬ matched r' req) →
  route routes req resp tr = dispatch_to rk req resp tr.
Proof.
  intros Hk Hm Hfirst.
  destruct (route_first_match routes req resp tr k rk Hk Hm)
    as (k' & rk' & Hle & Hrk' & Hmk' & _ & ->).
  destruct (decide (k' = k)) as [->|Hne]; [congruence|].
  exfalso. apply (Hfirst k' rk'); [lia | done | done].
Qed.

(** A parsed request for which the handler of the first matching route
    returns. *)
Lemma consume_served routes client tr read req_buffer request k rk req' resp' :
  receive client max_size = (read, req_buffer) → (0 < read)%Z →
  parse new_request req_buffer read = Ret (true, request) →
  routes !! k = Some rk → matched rk request →
  (∀ k' r', k' < k → routes !! k' = Some r' → ¬ matched r' request) →
  invoke (http_route.controller rk) (http_route.handler rk)
    (http_route.matches rk request).2 new_response = Ret (req', resp') →
  (consume routes client tr).1 = Ret tt
  ∧ handler_calls (consume routes client tr).2
    = handler_calls tr
      ++ [(http_route.controller rk, http_route.handler rk)]
  ∧ bytes_sent (consume routes client tr).2
    = bytes_sent tr ++ [response_str resp'].
Proof.
  intros Hrecv Hread Hparse Hk Hm Hfirst Hinv.
  pose proof (route_at_first_match routes request new_response [] k rk
                Hk Hm Hfirst) as Hroute.
  unfold dispatch_to in Hroute. rewrite Hinv in Hroute.
  rewrite (consume_parsed _ _ _ _ _ _ _ _ Hrecv Hread Hparse Hroute).
  cbn [reply fst snd]. split; [done|].
  rewrite !handler_calls_app, !bytes_sent_app.
  destruct (bool_decide _); simpl; by rewrite ?app_nil_r.
Qed.

(** A parsed request that no route matches. *)
Lemma consume_unmatched routes client tr read req_buffer request :
  receive client max_size = (read, req_buffer) → (0 < read)%Z →
  parse new_request req_buffer read = Ret (true, request) →
  (∀ r, r ∈ routes → ¬ matched r request) →
  (consume routes client tr).1 = Ret tt
  ∧ handler_calls (consume routes client tr).2 = handler_calls tr
  ∧ bytes_sent (consume routes client tr).2
    = bytes_sent tr ++ [response_str (not_found new_response)].
Proof.
  intros Hrecv Hread Hparse Hnone.
  pose proof (route_none routes request new_response [] Hnone) as Hroute.
  rewrite (consume_parsed _ _ _ _ _ _ _ _ Hrecv Hread Hparse Hroute).
  cbn [reply fst snd]. split; [done|].
  rewrite !handler_calls_app, !bytes_sent_app.
  destruct (bool_decide _); simpl; by rewrite ?app_nil_r.
Qed.

(** The worker after a connection that [consume] returned from. *)
Lemma run_two routes client next tr tr' :
  consume routes client tr = (Ret tt, tr') →
  (run routes [client; next] tr).2 = (consume routes next tr').2
  ∧ ((consume routes next tr').1 = Ret tt →
     (run routes [client; next] tr).1 = Ret tt).
Proof.
  intros Hc. rewrite (run_cons _ _ _ _ _ Hc). simpl. step_M.
  destruct (consume routes next tr') as [[[]|e| |] tr2]; simpl; try done.
Qed.

End reply_facts.

(** ** What routing looks at *)

Section routing_inputs.
Context `{Collaborators}.
Import http_consumer.

(** [matches] answers from the method and the path of the request. *)
Lemma matches_answer_inputs r req req' :
  http_request.method req' = http_request.method req →
  http_request.path req' = http_request.path req →
  (http_route.matches r req').1 = (http_route.matches r req).1.
Proof.
  intros Hmeth Hpath. unfold http_route.matches. rewrite Hmeth, Hpath.
  destruct (_ && _); [done|]. destruct (negb _); [done|].
  destruct (std_regex.regex_search _ _) as [found m].
  by destruct (_ && _).
Qed.

Lemma route_calls_inputs routes req req' resp resp' tr tr' :
  http_request.method req' = http_request.method req →
  http_request.path req' = http_request.path req →
  handler_calls (route routes req' resp' tr').2
  = handler_calls tr'
    ++ drop (length (handler_calls tr))
         (handler_calls (route routes req resp tr).2).
Proof.
  intros Hmeth Hpath.
  assert (∀ r, matched r req' ↔ matched r req) as Hsame.
  { intros r. unfold matched.
    by rewrite (matches_answer_inputs r req req' Hmeth Hpath). }
  induction routes as [|r routes IH].
  - simpl. step_M. rewrite !handler_calls_app.
    by rewrite drop_app_length.
  - destruct (matched_dec r req) as [Hr | Hr].
    + rewrite (route_hit r routes req resp tr Hr).
      rewrite (route_hit r routes req' resp' tr' (proj2 (Hsame r) Hr)).
      unfold dispatch_to. cbn [snd]. rewrite !handler_calls_app.
      by rewrite drop_app_length.
    + rewrite (route_skip r routes req resp tr Hr).
      rewrite (route_skip r routes req' resp' tr'); [apply IH|].
      by rewrite Hsame.
Qed.

End routing_inputs.

(** * The claims *)

(** C1: when two registered routes both match a request, [route] invokes
    a handler registered no later than the earlier of the two, and never
    the later one: the table is walked in registration order and the walk
    stops at the first route whose [matches] succeeds, so exactly one
    handler runs, that of the first matching route (the earlier of the two
    when nothing before it matches). *)
Theorem route_first_registered_wins `{Collaborators}
    (routes : list http_route.t) (i j : nat) (ri rj : http_route.t)
    (req : http_request.t) (resp : http_response.t) (tr : trace) :
  routes !! i = Some ri → routes !! j = Some rj → i < j →
  matched ri req → matched rj req →
  ∃ k rk,
    k ≤ i ∧ k < j ∧ routes !! k = Some rk ∧ matched rk req
    ∧ (∀ k' r', k' < k → routes !! k' = Some r' → ¬ matched r' req)
    ∧ ((∀ k' r', k' < i → routes !! k' = Some r' → ¬ matched r' req) →
       k = i ∧ rk = ri)
    ∧ http_consumer.route routes req resp tr = dispatch_to rk req resp tr
    ∧ handler_calls (http_consumer.route routes req resp tr).2
      = handler_calls tr
        ++ [(http_route.controller rk, http_route.handler rk)].
Proof.
  intros Hi Hj Hlt Hmi Hmj.
  destruct (route_first_match routes req resp tr i ri Hi Hmi)
    as (k & rk & Hk & Hrk & Hmk & Hfirst & Hroute).
  exists k, rk. split_and!; try done; [lia | |].
  - intros Hnone.
    assert (k = i) as ->.
    { destruct (decide (k = i)) as [|Hne]; [done|].
      exfalso. apply (Hnone k rk); [lia | done | done]. }
    split; [done | congruence].
  - rewrite Hroute. unfold dispatch_to. simpl.
    by rewrite handler_calls_app.
Qed.

Lemma route_first_registered_wins_witness :
  let first := literal_route "/a" 1 10 ANY in
  let second := literal_route "/a" 2 20 GET in
  let req := example_request GET "/a" in
  ∃ k rk,
    k ≤ 0 ∧ k < 1 ∧ [first; second] !! k = Some rk ∧ matched rk req
    ∧ (∀ k' r', k' < k → [first; second] !! k' = Some r' → ¬ matched r' req)
    ∧ ((∀ k' r', k' < 0 → [first; second] !! k' = Some r' → ¬ matched r' req)
       → k = 0 ∧ rk = first)
    ∧ http_consumer.route (H:=example_collaborators) [first; second] req
        example_response []
      = dispatch_to (H:=example_collaborators) rk req example_response []
    ∧ handler_calls
        (http_consumer.route (H:=example_collaborators) [first; second] req
           example_response []).2
      = handler_calls []
        ++ [(http_route.controller rk, http_route.handler rk)].
Proof.
  exact (route_first_registered_wins (H:=example_collaborators)
           [literal_route "/a" 1 10 ANY; literal_route "/a" 2 20 GET] 0 1
           (literal_route "/a" 1 10 ANY) (literal_route "/a" 2 20 GET)
           (example_request GET "/a") example_response []
           eq_refl eq_refl (le_n 1) eq_refl eq_refl).
Defined.

(** C2: a successful match of a route compiled from a template with
    named-parameter tokens binds each captured group, in order, to its
    parameter name (a name that occurs twice keeps the group of its last
    occurrence).  Template /user/:id([0-9]+) against path /user/42 matches
    with parameters = {id: 42} and does not match /user/abc; template
    /:a([a-z]+)/:b([0-9]+) against /foo/7 yields {a: foo, b: 7}, the names
    being [a; b] in declared order. *)
Theorem named_parameters_bound_in_order `{Collaborators} (c h : nat)
    (tr : trace) :
  (∀ r req,
     http_route.is_re r = true → matched r req →
     ∃ m,
       std_regex.regex_search (http_request.path req) (http_route.re r)
       = (true, m)
       ∧ std_regex.size m = length (http_route.names r) + 1
       ∧ ∀ i name,
           http_route.names r !! i = Some name →
           (∀ j, i < j → http_route.names r !! j ≠ Some name) →
           http_request.parameters (http_route.matches r req).2 !! name
           = Some (std_regex.sub m (S i)))
  ∧ (∃ r tr',
       http_route.http_route "/user/:id([0-9]+)" c h ANY tr = (Ret r, tr')
       ∧ http_route.names r = ["id"]
       ∧ (∀ req, http_request.path req = "/user/42" →
                 http_request.parameters req = ∅ →
                 ∃ req', http_route.matches r req = (true, req')
                         ∧ http_request.parameters req' = {["id" := "42"]})
       ∧ (∀ req, http_request.path req = "/user/abc" →
                 http_route.matches r req = (false, req)))
  ∧ (∃ r tr',
       http_route.http_route "/:a([a-z]+)/:b([0-9]+)" c h ANY tr = (Ret r, tr')
       ∧ http_route.names r = ["a"; "b"]
       ∧ (∀ req, http_request.path req = "/foo/7" →
                 http_request.parameters req = ∅ →
                 ∃ req', http_route.matches r req = (true, req')
                         ∧ http_request.parameters req'
                           = <["a" := "foo"]> {["b" := "7"]})).
Proof.
  split_and!.
  - apply groups_bound_to_names.
  - apply user_id_template.
  - apply two_parameter_template.
Qed.

(** C3: for a template P with no [:name(regex)] token, [matches] succeeds
    on a request iff the method constraint is satisfied (the route's method
    is ANY or equals the request's) and the request's path equals P
    exactly, case-sensitively; any other path never matches. *)
Theorem literal_route_matches_exactly `{Collaborators} (P : string)
    (c h : nat) (meth : Method) (tr : trace) :
  ¬ has_token P →
  ∃ r, http_route.http_route P c h meth tr = (Ret r, tr)
       ∧ http_route.is_re r = false
       ∧ ∀ req, matched r req ↔
                (meth = ANY ∨ http_request.method req = meth)
                ∧ http_request.path req = P.
Proof.
  intros HP. apply literal_template_iff in HP.
  exists (literal_route P c h meth).
  split; [by apply http_route_literal|]. split; [done|].
  intros req. by rewrite matched_literal.
Qed.

Lemma literal_route_matches_exactly_witness :
  ¬ has_token "/Hello"
  ∧ ∃ r, http_route.http_route (H:=example_collaborators) "/Hello" 1 1 GET []
         = (Ret r, [])
         ∧ http_route.is_re r = false
         ∧ ∀ req, matched r req ↔
                  (GET = ANY ∨ http_request.method req = GET)
                  ∧ http_request.path req = "/Hello".
Proof.
  assert (¬ has_token "/Hello") as Hliteral.
  { apply literal_template_iff. reflexivity. }
  split; [exact Hliteral|].
  exact (literal_route_matches_exactly (H:=example_collaborators)
           "/Hello" 1 1 GET [] Hliteral).
Defined.



(** C5, as the claim states it, fails: the constructor accepts a template
    whose text carries a group of its own, and the route it builds has two
    groups for one name. *)
Lemma group_count_differs_after_construction :
  ∃ r tr',
    http_route.http_route (H:=example_collaborators) "/(x)/:a(b)" 1 1 ANY []
    = (Ret r, tr')
    ∧ http_route.is_re r = true
    ∧ http_route.names r = ["a"]
    ∧ std_regex.mark_count (http_route.re r) = 2
    ∧ std_regex.mark_count (http_route.re r) ≠ length (http_route.names r).
Proof.
  eexists _, _. split; [vm_compute; reflexivity|].
  split_and!; try reflexivity. vm_compute. lia.
Qed.

(** C5, amended: what the constructor establishes at registration is
    this.  The names of the route are the names of the tokens of the
    template, one per token and in their order; a literal route has no
    token, no name and no group; the matcher of a regex route has as many
    groups as the rewritten path has capturing parentheses; and when every
    colon of the template is an ordinary character (none escaped, none in
    a [[: :]] name) the rewriting keeps that number, so the matcher has as
    many groups as the template has capturing parentheses: the counts agree
    exactly for the templates whose only capturing parentheses are those
    that open the expressions of its tokens.  For the other templates the
    counts differ, and [matches] compares them on every search: a regex
    route matches a request only if its matcher has as many groups as the
    route has names, and a route whose counts differ matches no request. *)
Theorem group_count_checked_when_matching `{Collaborators} (P : string)
    (c h : nat) (meth : Method) (tr tr' : trace) (r : http_route.t)
    (toks : list (string * string)) :
  tokens_of P toks →
  http_route.http_route P c h meth tr = (Ret r, tr') →
  http_route.names r = toks.*1
  ∧ (http_route.is_re r = false →
     toks = [] ∧ std_regex.mark_count (http_route.re r) = 0)
  ∧ (http_route.is_re r = true →
     std_regex.mark_count (http_route.re r)
     = std_regex.capture_opens (http_route.path r))
  ∧ (colons_plain P →
     std_regex.capture_opens (http_route.path r) = std_regex.capture_opens P
     ∧ (std_regex.mark_count (http_route.re r) = length (http_route.names r)
        ↔ http_route.is_re r = false
          ∨ std_regex.capture_opens P = length toks))
  ∧ (∀ req, http_route.is_re r = true → matched r req →
            std_regex.mark_count (http_route.re r)
            = length (http_route.names r))
  ∧ (std_regex.mark_count (http_route.re r) ≠ length (http_route.names r) →
     http_route.is_re r = true ∧ ∀ req, ¬ matched r req).
Proof.
  intros Htoks Hbuilt.
  apply http_route_built in Hbuilt as (st & re' & Hscan & -> & Hlit & Hre).
  destruct (scan_tokens P toks Htoks (S (String.length P))
              (http_route.Scan false P [] []) ltac:(lia))
    as (st' & Hscan' & Hnames & _ & Hsome).
  rewrite Hscan in Hscan'. injection Hscan' as <-.
  set (r := http_route.Build _ _ _ _ _ _ _).
  assert (http_route.names r = toks.*1) as Hn by done.
  assert (http_route.is_re r = false →
          toks = [] ∧ std_regex.mark_count (http_route.re r) = 0) as Hliteral.
  { subst r. simpl. intros Hst. destruct (Hlit Hst) as [_ ->].
    split; [|done]. destruct toks as [|tok toks]; [done|].
    rewrite Hsome in Hst; done. }
  assert (http_route.is_re r = true →
          std_regex.mark_count (http_route.re r)
          = std_regex.capture_opens (http_route.path r)) as Hgroups.
  { subst r. simpl. intros Hst. by apply Hre, construct_facts in Hst as [_ ?]. }
  split_and!; [done | done | done | | |].
  - intros Hplain.
    destruct (scan_keeps_groups _ _ _ _ Hscan Hplain) as [Hkept _].
    simpl in Hkept. split; [done|].
    rewrite Hn, length_fmap.
    destruct (http_route.is_re r) eqn:Hst.
    + rewrite (Hgroups eq_refl). subst r. simpl in *. rewrite Hkept.
      split; [by right | by intros [? | ?]].
    + destruct (Hliteral eq_refl) as [-> ->]. split; [by left | done].
  - intros req Hst Hm. by apply (matched_group_count r req).
  - intros Hne. destruct (http_route.is_re r) eqn:Hst.
    + split; [done|]. intros req Hm. apply Hne.
      by apply (matched_group_count r req).
    + destruct (Hliteral eq_refl) as [Ht Hc].
      rewrite Hc, Hn, Ht in Hne. done.
Qed.

Lemma group_count_checked_when_matching_witness :
  let P := "/user/:id([0-9]+)" in
  tokens_of P [("id", "[0-9]+")]
  ∧ colons_plain P
  ∧ ∃ r tr',
      http_route.http_route (H:=example_collaborators) P 1 1 ANY []
      = (Ret r, tr')
      ∧ http_route.names r = [("id", "[0-9]+")].*1
      ∧ (http_route.is_re r = false →
         [("id", "[0-9]+")] = []
         ∧ std_regex.mark_count (http_route.re r) = 0)
      ∧ (http_route.is_re r = true →
         std_regex.mark_count (http_route.re r)
         = std_regex.capture_opens (http_route.path r))
      ∧ (colons_plain P →
         std_regex.capture_opens (http_route.path r)
         = std_regex.capture_opens P
         ∧ (std_regex.mark_count (http_route.re r)
            = length (http_route.names r)
            ↔ http_route.is_re r = false
              ∨ std_regex.capture_opens P = length [("id", "[0-9]+")]))
      ∧ (∀ req, http_route.is_re r = true → matched r req →
                std_regex.mark_count (http_route.re r)
                = length (http_route.names r))
      ∧ (std_regex.mark_count (http_route.re r)
         ≠ length (http_route.names r) →
         http_route.is_re r = true ∧ ∀ req, ¬ matched r req).
Proof.
  assert (tokens_of "/user/:id([0-9]+)" [("id", "[0-9]+")]) as Htoks.
  { apply (tokens_found_sound 18). vm_compute. reflexivity. }
  split; [exact Htoks|]. split; [reflexivity|].
  eexists _, _. split; [vm_compute; reflexivity|].
  eapply (group_count_checked_when_matching (H:=example_collaborators)
            "/user/:id([0-9]+)" 1 1 ANY []);
    [exact Htoks | vm_compute; reflexivity].
Defined.

(** C6: the named-parameter rewrite loop of the constructor makes progress
    and ends after finitely many turns on every template, malformed ones
    included: the text it scans next is what follows the token just found,
    which is strictly shorter, whatever the rewrite put into the path; at
    most one turn per character of the template is taken, and the
    constructor returns a route or throws [std::regex_error].  On the
    template :a(:b(x)) the rewritten path (:b(x)) holds a token again, and
    the loop has ended after its one turn. *)
Theorem rewrite_loop_terminates `{Collaborators} (path : string)
    (c h : nat) (meth : Method) (tr : trace) :
  (∀ tmp m,
     std_regex.regex_search tmp NAMED_PARAM_PARSER = (true, m) →
     String.length (std_regex.suffix m) < String.length tmp)
  ∧ (∃ st,
       http_route.scan (S (String.length path)) path
         (http_route.Scan false path [] []) = Some st
       ∧ length (http_route.scan_names st) ≤ String.length path)
  ∧ (∃ tr',
       (∃ r, http_route.http_route path c h meth tr = (Ret r, tr'))
       ∨ (∃ code what,
            http_route.http_route path c h meth tr
            = (Throw (regex_error code what), tr')))
  ∧ (∃ st,
       http_route.scan (S (String.length ":a(:b(x))")) ":a(:b(x))"
         (http_route.Scan false ":a(:b(x))" [] []) = Some st
       ∧ http_route.scan_names st = ["a"]
       ∧ http_route.scan_path st = "(:b(x))"
       ∧ has_token (http_route.scan_path st)).
Proof.
  split_and!.
  - apply token_progress.
  - destruct (scan_total (S (String.length path)) path
                (http_route.Scan false path [] [])) as [st Hst]; [lia|].
    exists st. split; [done|]. by apply scan_names_bound in Hst.
  - apply http_route_returns_or_throws.
  - eexists. split; [vm_compute; reflexivity|]. simpl.
    split_and!; [done | done |]. apply has_token_iff. reflexivity.
Qed.

(** C7: when no registered route matches the request, [route] produces the
    not-found response and invokes no handler. *)
Theorem route_without_match_is_not_found `{Collaborators}
    (routes : list http_route.t) (req : http_request.t)
    (resp : http_response.t) (tr : trace) :
  (∀ r, r ∈ routes → ¬ matched r req) →
  http_consumer.route routes req resp tr
  = (Ret (req, not_found resp), tr ++ [no_route_line req])
  ∧ handler_calls (http_consumer.route routes req resp tr).2
    = handler_calls tr.
Proof.
  intros Hnone. rewrite route_none by done. split; [done|].
  simpl. rewrite handler_calls_app. simpl. by rewrite app_nil_r.
Qed.

Lemma route_without_match_is_not_found_witness :
  let routes := [literal_route "/a" 1 10 ANY; literal_route "/b" 2 20 GET] in
  let req := example_request GET "/c" in
  http_consumer.route (H:=example_collaborators) routes req example_response []
  = (Ret (req, not_found (Collaborators:=example_collaborators)
                 example_response),
     [] ++ [no_route_line (H:=example_collaborators) req])
  ∧ handler_calls
      (http_consumer.route (H:=example_collaborators) routes req
         example_response []).2
    = handler_calls [].
Proof.
  apply (route_without_match_is_not_found (H:=example_collaborators)
           [literal_route "/a" 1 10 ANY; literal_route "/b" 2 20 GET]
           (example_request GET "/c") example_response []).
  intros r Hr.
  repeat (apply elem_of_cons in Hr as [-> | Hr]; [by vm_compute|]).
  by apply elem_of_nil in Hr.
Defined.

(** C8: when the first read of a connection returns zero or a negative
    count, [consume] returns at once: nothing is parsed or routed, no
    handler runs and no byte is sent; the run leaves the connection line,
    the read and the error line behind. *)
Theorem consume_abandons_failed_read `{Collaborators}
    (routes : list http_route.t) (client : tcp_stream) (tr : trace)
    (read : Z) (req_buffer : string) :
  receive client max_size = (read, req_buffer) → (read ≤ 0)%Z →
  http_consumer.consume routes client tr
  = (Ret tt, tr ++ [connection_line client; Receive max_size read;
                    read_failed_line read])
  ∧ handler_calls (http_consumer.consume routes client tr).2
    = handler_calls tr
  ∧ bytes_sent (http_consumer.consume routes client tr).2 = bytes_sent tr.
Proof.
  intros Hrecv Hread.
  rewrite (consume_read_failed routes client tr read req_buffer) by done.
  split_and!; [done | |]; simpl.
  - rewrite handler_calls_app. simpl. by rewrite app_nil_r.
  - rewrite bytes_sent_app. simpl. by rewrite app_nil_r.
Qed.

Lemma consume_abandons_failed_read_witness :
  let client := example_client "" in
  let consumed :=
    http_consumer.consume (H:=example_collaborators) [] client [] in
  receive client (max_size (Collaborators:=example_collaborators)) = (0%Z, "")
  ∧ consumed = (Ret tt, [] ++ [connection_line client;
                               Receive 1024 0; read_failed_line 0])
  ∧ handler_calls consumed.2 = handler_calls []
  ∧ bytes_sent consumed.2 = bytes_sent [].
Proof.
  split; [reflexivity|].
  exact (consume_abandons_failed_read (H:=example_collaborators) []
           (example_client "") [] 0 "" eq_refl (Z.le_refl 0)).
Defined.

(** C9, as the claim states it, fails, in two ways.  [consume] catches
    [std::regex_error] and nothing else: when the parser runs out of
    memory on the bytes of a connection, the exception leaves [consume]
    and the worker with it; no diagnostic is logged, and the connection
    pulled next, which a worker would have served, is never read.  And the
    buffer is logged as a C string: when the parser returns false for a
    buffer that the peer has filled to its last byte, the log call reads
    past the end of the array, and what the worker does from there on is
    not defined. *)
Lemma parse_failure_leaves_consume :
  let client := example_client "PUT /a" in
  let full := example_client "POST /ab" in
  let next := example_client "GET /a" in
  let routes := [literal_route "/a" 1 10 ANY] in
  let alone :=
    http_consumer.run (H:=faulty_collaborators) routes [next] [] in
  let served :=
    http_consumer.run (H:=faulty_collaborators) routes [client; next] [] in
  (parse (Collaborators:=faulty_collaborators)
     (new_request (Collaborators:=faulty_collaborators)) "PUT /a" 6
   = Throw (other_exception "std::bad_alloc")
   ∧ http_consumer.consume (H:=faulty_collaborators) routes client []
     = (Throw (other_exception "std::bad_alloc"),
        [connection_line client; Receive 8 6; read_line 6])
   ∧ alone.1 = Ret tt
   ∧ handler_calls alone.2 = [(1, 10)]
   ∧ bytes_sent alone.2 = ["/a"]
   ∧ served.1 = Throw (other_exception "std::bad_alloc")
   ∧ reads served.2 = [(8, 6%Z)]
   ∧ handler_calls served.2 = []
   ∧ bytes_sent served.2 = []
   ∧ ∀ fmt args, Log ERROR fmt args ∉ served.2)
  ∧ (receive full (max_size (Collaborators:=faulty_collaborators))
     = (8%Z, "POST /ab")
     ∧ parse (Collaborators:=faulty_collaborators)
         (new_request (Collaborators:=faulty_collaborators)) "POST /ab" 8
       = Ret (false, new_request (Collaborators:=faulty_collaborators))
     ∧ http_consumer.consume (H:=faulty_collaborators) routes full []
       = (Undefined, [connection_line full; Receive 8 8; read_line 8])
     ∧ http_consumer.run (H:=faulty_collaborators) routes [full; next] []
       = (Undefined, [connection_line full; Receive 8 8; read_line 8])).
Proof.
  split; split_and!; try reflexivity.
  intros fmt args Hin. vm_compute in Hin.
  repeat (apply elem_of_cons in Hin as [Hin | Hin]; [discriminate|]).
  by apply elem_of_nil in Hin.
Qed.

(** C9, amended: when [parse] returns false for the bytes of a
    connection and the buffer holds the zero byte that ends the text to
    log, or when a [std::regex_error] is thrown inside [parse], the failure
    stays inside [consume] for that connection: the diagnostic is logged,
    [consume] returns normally with no handler called and nothing sent,
    and the worker goes on to the connections it pulls next, from the
    state a fresh worker is in.  In particular the connection pulled next
    is served: when its bytes parse, the handler of the first route that
    matches the request is called and, once it has returned, the response
    is written; when no route matches, the not-found response is
    written.  (An exception of another kind is not caught, and a buffer
    filled to its last byte is logged without its end; neither is covered
    here.) *)
Theorem consume_contains_parse_failure `{Collaborators}
    (routes : list http_route.t) (client : tcp_stream) (tr : trace)
    (read : Z) (req_buffer : string) (line : event) :
  receive client max_size = (read, req_buffer) → (0 < read)%Z →
  parse_failure req_buffer read line →
  ∃ tr',
    tr' = tr ++ [connection_line client; Receive max_size read;
                 read_line read; line]
    ∧ (∃ fmt args, line = Log ERROR fmt args)
    ∧ http_consumer.consume routes client tr = (Ret tt, tr')
    ∧ handler_calls tr' = handler_calls tr
    ∧ bytes_sent tr' = bytes_sent tr
    ∧ (∀ queue,
         http_consumer.run routes (client :: queue) tr
         = http_consumer.run routes queue tr'
         ∧ http_consumer.run routes (client :: queue) tr
           = ((http_consumer.run routes queue []).1,
              tr' ++ (http_consumer.run routes queue []).2))
    ∧ (∀ next read' buffer' request,
         receive next max_size = (read', buffer') → (0 < read')%Z →
         parse new_request buffer' read' = Ret (true, request) →
         let served := http_consumer.run routes [client; next] tr in
         (∀ k rk req' resp',
            routes !! k = Some rk → matched rk request →
            (∀ k' r', k' < k → routes !! k' = Some r' →
                      ¬ matched r' request) →
            invoke (http_route.controller rk) (http_route.handler rk)
              (http_route.matches rk request).2 new_response
            = Ret (req', resp') →
            served.1 = Ret tt
            ∧ handler_calls served.2
              = handler_calls tr
                ++ [(http_route.controller rk, http_route.handler rk)]
            ∧ bytes_sent served.2 = bytes_sent tr ++ [response_str resp'])
         ∧ ((∀ r, r ∈ routes → ¬ matched r request) →
            served.1 = Ret tt
            ∧ handler_calls served.2 = handler_calls tr
            ∧ bytes_sent served.2
              = bytes_sent tr ++ [response_str (not_found new_response)])).
Proof.
  intros Hrecv Hread Hparse. eexists. split; [reflexivity|].
  assert (∃ fmt args, line = Log ERROR fmt args) as (fmt & args & ->).
  { destruct Hparse; eauto. }
  pose proof (consume_parse_failed routes client tr read req_buffer _
                Hrecv Hread Hparse) as Hc.
  set (tr' := tr ++ _) in *.
  assert (handler_calls tr' = handler_calls tr) as Hcalls.
  { subst tr'. rewrite handler_calls_app. simpl. by rewrite app_nil_r. }
  assert (bytes_sent tr' = bytes_sent tr) as Hsent.
  { subst tr'. rewrite bytes_sent_app. simpl. by rewrite app_nil_r. }
  split_and!; [by eauto | done | done | done | |].
  - intros queue. rewrite (run_cons _ _ _ _ _ Hc).
    split; [done | apply framed_run].
  - intros next read' buffer' request Hrecv' Hread' Hparse' served.
    destruct (run_two routes client next tr tr' Hc) as [Htrace Hret].
    subst served. rewrite Htrace. split.
    + intros k rk req' resp' Hk Hm Hfirst Hinv.
      destruct (consume_served routes next tr' read' buffer' request k rk
                  req' resp' Hrecv' Hread' Hparse' Hk Hm Hfirst Hinv)
        as (Hr & Hh & Hb).
      rewrite Hh, Hb, Hcalls, Hsent. split_and!; [by apply Hret | done..].
    + intros Hnone.
      destruct (consume_unmatched routes next tr' read' buffer' request
                  Hrecv' Hread' Hparse' Hnone) as (Hr & Hh & Hb).
      rewrite Hh, Hb, Hcalls, Hsent. split_and!; [by apply Hret | done..].
Qed.

Lemma consume_contains_parse_failure_witness :
  let client := example_client "POST /a" in
  let routes := [literal_route "/a" 1 10 ANY] in
  parse_failure (H:=example_collaborators) "POST /a" 7
    (parse_failed_line "POST /a")
  ∧ (let served :=
       http_consumer.run (H:=example_collaborators) routes
         [client; example_client "GET /a"] [] in
     served.1 = Ret tt
     ∧ handler_calls served.2 = [(1, 10)]
     ∧ bytes_sent served.2 = ["/a"])
  ∧ ∃ tr',
      tr' = [] ++ [connection_line client; Receive 1024 7; read_line 7;
                   parse_failed_line "POST /a"]
      ∧ (∃ fmt args, parse_failed_line "POST /a" = Log ERROR fmt args)
      ∧ http_consumer.consume (H:=example_collaborators) routes client []
        = (Ret tt, tr')
      ∧ handler_calls tr' = handler_calls []
      ∧ bytes_sent tr' = bytes_sent []
      ∧ (∀ queue,
           http_consumer.run (H:=example_collaborators) routes
             (client :: queue) []
           = http_consumer.run (H:=example_collaborators) routes queue tr'
           ∧ http_consumer.run (H:=example_collaborators) routes
               (client :: queue) []
             = ((http_consumer.run (H:=example_collaborators) routes queue
                   []).1,
                tr' ++ (http_consumer.run (H:=example_collaborators) routes
                          queue []).2))
      ∧ (∀ next read' buffer' request,
           receive next (max_size (Collaborators:=example_collaborators))
           = (read', buffer') →
           (0 < read')%Z →
           parse (Collaborators:=example_collaborators)
             (new_request (Collaborators:=example_collaborators)) buffer'
             read' = Ret (true, request) →
           let served :=
             http_consumer.run (H:=example_collaborators) routes
               [client; next] [] in
           (∀ k rk req' resp',
              routes !! k = Some rk → matched rk request →
              (∀ k' r', k' < k → routes !! k' = Some r' →
                        ¬ matched r' request) →
              invoke (Collaborators:=example_collaborators)
                (http_route.controller rk) (http_route.handler rk)
                (http_route.matches rk request).2
                (new_response (Collaborators:=example_collaborators))
              = Ret (req', resp') →
              served.1 = Ret tt
              ∧ handler_calls served.2
                = handler_calls []
                  ++ [(http_route.controller rk, http_route.handler rk)]
              ∧ bytes_sent served.2
                = bytes_sent []
                  ++ [response_str (Collaborators:=example_collaborators)
                        resp'])
           ∧ ((∀ r, r ∈ routes → ¬ matched r request) →
              served.1 = Ret tt
              ∧ handler_calls served.2 = handler_calls []
              ∧ bytes_sent served.2
                = bytes_sent []
                  ++ [response_str (Collaborators:=example_collaborators)
                        (not_found (Collaborators:=example_collaborators)
                           (new_response
                              (Collaborators:=example_collaborators)))])).
Proof.
  assert (parse_failure (H:=example_collaborators) "POST /a" 7
            (parse_failed_line "POST /a")) as Hfail.
  { by apply (parse_returns_false (H:=example_collaborators) "POST /a" 7
                (example_request ANY "") "POST /a"). }
  split; [exact Hfail|]. split; [by vm_compute|].
  exact (consume_contains_parse_failure (H:=example_collaborators)
           [literal_route "/a" 1 10 ANY] (example_client "POST /a")
           [] 7 "POST /a" _ eq_refl eq_refl Hfail).
Defined.

(** C10: whenever [matches] returns false (method mismatch, literal path
    mismatch, failed search, or a group count that differs from the number
    of names plus one) the request is left as it was; its parameters are
    written on the success path only. *)
Theorem matches_false_leaves_request (r : http_route.t)
    (req req' : http_request.t) :
  http_route.matches r req = (false, req') → req' = req.
Proof.
  intros Hm. pose proof (matches_false r req) as Hf.
  rewrite Hm in Hf. by apply Hf.
Qed.

Lemma matches_false_leaves_request_witness :
  let r := literal_route "/a" 1 1 GET in
  let req := example_request POST "/a" in
  (http_route.matches r req).1 = false ∧ (http_route.matches r req).2 = req.
Proof.
  split; [reflexivity|].
  exact (matches_false_leaves_request (literal_route "/a" 1 1 GET)
           (example_request POST "/a") _ eq_refl).
Defined.

(** * Further properties of the code *)


(** X1: a search with [NAMED_PARAM_PARSER] succeeds exactly on a text that
    holds a token [:name(expr)] (a colon, a nonempty name of letters,
    digits and underscores, and a parenthesised expression free of closing
    parentheses), and what it returns is the leftmost token: the text
    before it, the token with its name and expression as groups 1 and 2,
    and the text after it; on a text without token the result is empty. *)
Theorem named_param_parser_finds_leftmost_token (tmp : string)
    (m : std_regex.smatch) :
  (std_regex.regex_search tmp NAMED_PARAM_PARSER = (true, m) ↔
   ∃ name expr here,
     tmp = std_regex.prefix m +:+ here
     ∧ token_at name expr (std_regex.suffix m) here
     ∧ std_regex.subs m
       = [Some (":" +:+ name +:+ "(" +:+ expr +:+ ")"); Some name; Some expr]
     ∧ ∀ before' here' name' expr' after',
         tmp = before' +:+ here' → token_at name' expr' after' here' →
         String.length (std_regex.prefix m) ≤ String.length before')
  ∧ (std_regex.regex_search tmp NAMED_PARAM_PARSER = (false, m) ↔
     ¬ has_token tmp ∧ m = std_regex.no_match).
Proof.
  split; split.
  - apply token_search_found.
  - intros (name & expr & here & Htmp & Htok & Hsubs & Hleft).
    rewrite (token_search_leftmost tmp _ _ _ _ _ Htmp Htok Hleft).
    destruct m as [p sb sf]. simpl in *. by subst.
  - intros Hs. split.
    + apply literal_template_iff. unfold literal_template. by rewrite Hs.
    + by apply search_from_not_found in Hs.
  - intros [Hnone ->]. apply literal_template_iff in Hnone.
    unfold literal_template in Hnone.
    destruct (std_regex.regex_search tmp NAMED_PARAM_PARSER) as [found m]
      eqn:Hs.
    simpl in Hnone. subst found.
    by apply search_from_not_found in Hs as ->.
Qed.


(** X2: the rewrite loop of the constructor ends, for every template,
    with one name per token of the template, in the order the tokens stand
    in it, whatever the rewriting does to the path, and with [is_re] set
    exactly when there is a token; these are the names and the flag of
    the route, whenever the constructor returns one. *)
Theorem route_names_are_token_names `{Collaborators} (P : string)
    (toks : list (string * string)) :
  tokens_of P toks →
  ∃ st,
    http_route.scan (S (String.length P)) P (http_route.Scan false P [] [])
    = Some st
    ∧ http_route.scan_names st = toks.*1
    ∧ length (http_route.scan_names st) = length toks
    ∧ (http_route.scan_is_re st = true ↔ toks ≠ [])
    ∧ ∀ c h meth tr r tr',
        http_route.http_route P c h meth tr = (Ret r, tr') →
        http_route.names r = http_route.scan_names st
        ∧ http_route.is_re r = http_route.scan_is_re st.
Proof.
  intros Htoks.
  destruct (scan_tokens P toks Htoks (S (String.length P))
              (http_route.Scan false P [] []) ltac:(lia))
    as (st & Hscan & Hnames & Hnil & Hre).
  exists st. simpl in Hnames.
  split_and!; [done | done | by rewrite Hnames, length_fmap | |].
  - split; [|apply Hre]. intros Hst ->. rewrite (Hnil eq_refl) in Hst. done.
  - intros c h meth tr r tr' Hbuilt.
    apply http_route_built in Hbuilt as (st' & re' & Hscan' & -> & _).
    rewrite Hscan in Hscan'. by injection Hscan' as <-.
Qed.

Lemma route_names_are_token_names_witness :
  let P := "/:a([a-z]+)/:b([0-9]+)" in
  tokens_of P [("a", "[a-z]+"); ("b", "[0-9]+")]
  ∧ ∃ st,
      http_route.scan (S (String.length P)) P (http_route.Scan false P [] [])
      = Some st
      ∧ http_route.scan_names st = [("a", "[a-z]+"); ("b", "[0-9]+")].*1
      ∧ length (http_route.scan_names st) = 2
      ∧ (http_route.scan_is_re st = true ↔
         [("a", "[a-z]+"); ("b", "[0-9]+")] ≠ [])
      ∧ ∀ c h meth tr r tr',
          http_route.http_route (H:=example_collaborators) P c h meth tr
          = (Ret r, tr') →
          http_route.names r = http_route.scan_names st
          ∧ http_route.is_re r = http_route.scan_is_re st.
Proof.
  assert (tokens_of "/:a([a-z]+)/:b([0-9]+)"
            [("a", "[a-z]+"); ("b", "[0-9]+")]) as Htoks.
  { apply (tokens_found_sound 23). vm_compute. reflexivity. }
  split; [exact Htoks|].
  exact (route_names_are_token_names (H:=example_collaborators)
           "/:a([a-z]+)/:b([0-9]+)" _ Htoks).
Defined.

(** X3: a route the constructor returns keeps the method, controller and
    handler it was given; it is a regex route exactly when its template
    holds a token; a literal route keeps the template as its path and the
    constructor logs nothing for it; the matcher of a regex route is what
    [std::regex] builds from the rewritten path with [icase] set, and has
    as many groups as that path has capturing parentheses. *)
Theorem constructed_route_records_its_arguments `{Collaborators}
    (P : string) (c h : nat) (meth : Method) (tr tr' : trace)
    (r : http_route.t) :
  http_route.http_route P c h meth tr = (Ret r, tr') →
  http_route.method r = meth
  ∧ http_route.controller r = c
  ∧ http_route.handler r = h
  ∧ (http_route.is_re r = true ↔ has_token P)
  ∧ (http_route.is_re r = false → http_route.path r = P ∧ tr' = tr)
  ∧ (http_route.is_re r = true →
     std_regex.construct regex_library (http_route.path r) true
     = inr (http_route.re r)
     ∧ std_regex.icase (http_route.re r) = true
     ∧ std_regex.mark_count (http_route.re r)
       = std_regex.capture_opens (http_route.path r)).
Proof.
  intros Hbuilt.
  assert (has_token P ∨ ¬ has_token P) as [Hhas | Hnone].
  { rewrite has_token_iff.
    destruct (std_regex.regex_search P NAMED_PARAM_PARSER).1; auto. }
  - apply http_route_built in Hbuilt as (st & re' & Hscan & -> & _ & Hre).
    pose proof (scan_has_token _ _ _ _ Hhas Hscan) as Hst. simpl.
    split_and!; try done.
    + by rewrite Hst.
    + intros _. specialize (Hre Hst).
      split; [done|]. by apply construct_facts in Hre.
  - apply literal_template_iff in Hnone as Hlit.
    rewrite http_route_literal in Hbuilt by done.
    injection Hbuilt as <- <-. simpl. split_and!; try done.
Qed.

Lemma constructed_route_records_its_arguments_witness :
  ∃ r tr',
    http_route.http_route (H:=example_collaborators) "/user/:id([0-9]+)" 7 9
      POST [] = (Ret r, tr')
    ∧ http_route.method r = POST
    ∧ http_route.controller r = 7
    ∧ http_route.handler r = 9
    ∧ (http_route.is_re r = true ↔ has_token "/user/:id([0-9]+)")
    ∧ (http_route.is_re r = false →
       http_route.path r = "/user/:id([0-9]+)" ∧ tr' = [])
    ∧ (http_route.is_re r = true →
       std_regex.construct (regex_library (Collaborators:=example_collaborators))
         (http_route.path r) true
       = inr (http_route.re r)
       ∧ std_regex.icase (http_route.re r) = true
       ∧ std_regex.mark_count (http_route.re r)
         = std_regex.capture_opens (http_route.path r)).
Proof.
  eexists _, _. split; [vm_compute; reflexivity|].
  eapply (constructed_route_records_its_arguments (H:=example_collaborators)
            "/user/:id([0-9]+)" 7 9 POST []).
  vm_compute. reflexivity.
Defined.

(** X4: registering a route appends it to the table: the routes already
    there keep their positions, and for every request that one of them
    matches, dispatch does after the registration what it did before; the
    new route is reached only by requests that no earlier route matches,
    and then it is tried alone. *)
Theorem registration_keeps_earlier_routes_first `{Collaborators}
    (routes routes' : list http_route.t) (P : string) (c h : nat)
    (meth : Method) (tr tr' : trace) :
  http_server.route routes P c h meth tr = (Ret routes', tr') →
  ∃ r,
    routes' = routes ++ [r]
    ∧ (∀ i r0, routes !! i = Some r0 → routes' !! i = Some r0)
    ∧ (∀ req resp tr0,
         (∃ r0, r0 ∈ routes ∧ matched r0 req) →
         http_consumer.route routes' req resp tr0
         = http_consumer.route routes req resp tr0)
    ∧ (∀ req resp tr0,
         (∀ r0, r0 ∈ routes → ¬ matched r0 req) →
         http_consumer.route routes' req resp tr0
         = http_consumer.route [r] req resp tr0).
Proof.
  intros Hreg.
  apply http_server_route_appends in Hreg as (r & tr0 & _ & ->).
  exists r. split_and!; [done | | |].
  - intros i r0 Hi. by apply lookup_app_l_Some.
  - intros req resp tr1 Hm. by apply route_app_matched.
  - intros req resp tr1 Hnone. by apply route_app_unmatched.
Qed.

Lemma registration_keeps_earlier_routes_first_witness :
  let routes := [literal_route "/a" 1 10 ANY] in
  ∃ routes' tr',
    http_server.route (H:=example_collaborators) routes "/:x([a-z]+)" 2 20
      GET [] = (Ret routes', tr')
    ∧ ∃ r,
        routes' = routes ++ [r]
        ∧ (∀ i r0, routes !! i = Some r0 → routes' !! i = Some r0)
        ∧ (∀ req resp tr0,
             (∃ r0, r0 ∈ routes ∧ matched r0 req) →
             http_consumer.route (H:=example_collaborators) routes' req resp
               tr0
             = http_consumer.route (H:=example_collaborators) routes req resp
                 tr0)
        ∧ (∀ req resp tr0,
             (∀ r0, r0 ∈ routes → ¬ matched r0 req) →
             http_consumer.route (H:=example_collaborators) routes' req resp
               tr0
             = http_consumer.route (H:=example_collaborators) [r] req resp
                 tr0).
Proof.
  eexists _, _. split; [vm_compute; reflexivity|].
  eapply (registration_keeps_earlier_routes_first (H:=example_collaborators)
            [literal_route "/a" 1 10 ANY] _ "/:x([a-z]+)" 2 20 GET []).
  vm_compute. reflexivity.
Defined.


(** X5: a successful match changes nothing of the request but its
    parameters: method, path, headers and body stay; a parameter whose
    name is not one of the route's names keeps its value (or stays
    absent); on a regex route every name of the route is bound afterwards;
    a literal route leaves the request as it was. *)
Theorem match_writes_only_its_parameters (r : http_route.t)
    (req req' : http_request.t) :
  http_route.matches r req = (true, req') →
  http_request.method req' = http_request.method req
  ∧ http_request.path req' = http_request.path req
  ∧ http_request.headers req' = http_request.headers req
  ∧ http_request.body req' = http_request.body req
  ∧ (∀ name, name ∉ http_route.names r →
             http_request.parameters req' !! name
             = http_request.parameters req !! name)
  ∧ (http_route.is_re r = true →
     ∀ name, name ∈ http_route.names r →
             is_Some (http_request.parameters req' !! name))
  ∧ (http_route.is_re r = false → req' = req).
Proof.
  intros Hm. destruct (http_route.is_re r) eqn:Hre.
  - assert (matched r req) as Hmatched by (unfold matched; by rewrite Hm).
    destruct (matched_regex_inv r req Hre Hmatched) as (m & _ & Hsize & Heq).
    rewrite Hm in Heq. injection Heq as ->. simpl.
    unfold http_route.bind_parameters. rewrite Hsize.
    replace (length (http_route.names r) + 1 - 1)
      with (length (http_route.names r)) by lia.
    split_and!; try done.
    + intros name Hout. by apply bind_lookup_other.
    + intros _ name Hin. apply list_elem_of_lookup_1 in Hin as [i Hi].
      apply lookup_lt_Some in Hi as Hlt.
      by eapply bind_lookup_bound.
  - rewrite matches_literal in Hm by done.
    assert (req' = req) as -> by (by destruct (_ && _); injection Hm).
    by split_and!.
Qed.

Lemma match_writes_only_its_parameters_witness :
  ∃ r tr' req',
    http_route.http_route (H:=example_collaborators) "/user/:id([0-9]+)" 1 1
      ANY [] = (Ret r, tr')
    ∧ let req :=
        http_request.Build GET "/user/42" ∅ "" {["page" := "3"]} in
      http_route.matches r req = (true, req')
      ∧ http_request.method req' = http_request.method req
      ∧ http_request.path req' = http_request.path req
      ∧ http_request.headers req' = http_request.headers req
      ∧ http_request.body req' = http_request.body req
      ∧ (∀ name, name ∉ http_route.names r →
                 http_request.parameters req' !! name
                 = http_request.parameters req !! name)
      ∧ (http_route.is_re r = true →
         ∀ name, name ∈ http_route.names r →
                 is_Some (http_request.parameters req' !! name))
      ∧ (http_route.is_re r = false → req' = req).
Proof.
  eexists _, _, _. split; [vm_compute; reflexivity|].
  assert (∀ (A B : Prop), A → (A → B) → A ∧ B) as Hboth by tauto.
  apply Hboth; [vm_compute; reflexivity|].
  apply match_writes_only_its_parameters.
Defined.


(** X6: [route] does one of two things.  Either it calls exactly one
    handler, that of the first route in registration order that matches,
    with the request as that route's match left it and the response
    untouched; it then ends as the handler ends (with what the handler
    wrote, or with the exception the handler threw), logs nothing more and
    does not apply [not_found].  Or no route matches: it calls no handler,
    applies [not_found] to the response and returns, the request being as
    it came. *)
Theorem route_dispatches_once_or_answers_not_found `{Collaborators}
    (routes : list http_route.t) (req : http_request.t)
    (resp : http_response.t) (tr : trace) :
  ∃ o es,
    http_consumer.route routes req resp tr = (o, tr ++ es)
    ∧ ((∃ k rk,
          routes !! k = Some rk ∧ matched rk req
          ∧ (∀ k' r', k' < k → routes !! k' = Some r' → ¬ matched r' req)
          ∧ o = invoke (http_route.controller rk) (http_route.handler rk)
                  (http_route.matches rk req).2 resp
          ∧ es = [matched_line rk (http_route.matches rk req).2;
                  Call (http_route.controller rk) (http_route.handler rk)
                    (http_route.matches rk req).2]
          ∧ handler_calls es
            = [(http_route.controller rk, http_route.handler rk)])
       ∨ ((∀ r, r ∈ routes → ¬ matched r req)
          ∧ o = Ret (req, not_found resp)
          ∧ es = [no_route_line req]
          ∧ handler_calls es = [])).
Proof.
  destruct (route_outcome routes req resp tr)
    as [(k & rk & Hk & Hm & Hfirst & ->) | [Hnone ->]].
  - unfold dispatch_to. eexists _, _. split; [done|]. left.
    by exists k, rk.
  - eexists _, _. split; [done|]. by right.
Qed.

(** X7: once a request is read and parsed, [consume] routes it, and when
    [route] returns it writes the serialised response to the connection
    exactly once; it returns normally whether or not the write was
    complete, and a write that fell short adds one error line and nothing
    else: no second write.  When [route] does not return, because the
    handler threw, [consume] ends as [route] did and writes nothing. *)
Theorem consume_writes_the_response_once `{Collaborators}
    (routes : list http_route.t) (client : tcp_stream) (tr : trace)
    (read : Z) (req_buffer : string) (request : http_request.t)
    (o : outcome (http_request.t * http_response.t)) (es : list event) :
  receive client max_size = (read, req_buffer) → (0 < read)%Z →
  parse new_request req_buffer read = Ret (true, request) →
  http_consumer.route routes request new_response [] = (o, es) →
  let consumed := http_consumer.consume routes client tr in
  (∀ req' resp,
     o = Ret (req', resp) →
     let res_buffer := response_str resp in
     let sent := send client res_buffer in
     consumed
     = (Ret tt,
        tr ++ [connection_line client; Receive max_size read; read_line read]
           ++ es
           ++ Send res_buffer sent
           :: (if bool_decide (sent ≠ Z.of_nat (String.length res_buffer))
               then [short_write_line sent (String.length res_buffer)]
               else []))
     ∧ bytes_sent consumed.2 = bytes_sent tr ++ [res_buffer])
  ∧ ((∀ req' resp, o ≠ Ret (req', resp)) →
     consumed.1 ≠ Ret tt
     ∧ consumed.2
       = tr ++ [connection_line client; Receive max_size read; read_line read]
            ++ es
     ∧ bytes_sent consumed.2 = bytes_sent tr).
Proof.
  intros Hrecv Hread Hparse Hroute consumed. subst consumed.
  rewrite (consume_parsed _ _ _ _ _ _ _ _ Hrecv Hread Hparse Hroute).
  destruct (route_events routes request new_response [])
    as (o0 & es0 & Hroute0 & Hsent & _).
  rewrite Hroute in Hroute0. injection Hroute0 as <- <-.
  split.
  - intros req' resp ->. cbn [reply fst snd]. split; [done|].
    rewrite !bytes_sent_app, Hsent. by destruct (bool_decide _).
  - intros Hnot. destruct o as [[req' resp]|e| |];
      [by destruct (Hnot req' resp) | ..]; cbn [reply fst snd];
      rewrite !app_nil_r, !bytes_sent_app, Hsent; simpl;
      by rewrite ?app_nil_r.
Qed.

Lemma consume_writes_the_response_once_witness :
  let client := example_client "GET /nowhere" in
  let routes := [literal_route "/a" 1 10 ANY] in
  let request := example_request GET "/nowhere" in
  let o :=
    Ret (request,
         not_found (Collaborators:=example_collaborators) example_response) in
  let es := [no_route_line (H:=example_collaborators) request] in
  let consumed :=
    http_consumer.consume (H:=example_collaborators) routes client [] in
  (∀ req' resp,
     o = Ret (req', resp) →
     let res_buffer :=
       response_str (Collaborators:=example_collaborators) resp in
     let sent := send client res_buffer in
     consumed
     = (Ret tt,
        [] ++ [connection_line client; Receive 1024 12; read_line 12]
           ++ es
           ++ Send res_buffer sent
           :: (if bool_decide (sent ≠ Z.of_nat (String.length res_buffer))
               then [short_write_line sent (String.length res_buffer)]
               else []))
     ∧ bytes_sent consumed.2 = bytes_sent [] ++ [res_buffer])
  ∧ ((∀ req' resp, o ≠ Ret (req', resp)) →
     consumed.1 ≠ Ret tt
     ∧ consumed.2
       = [] ++ [connection_line client; Receive 1024 12; read_line 12] ++ es
     ∧ bytes_sent consumed.2 = bytes_sent []).
Proof.
  exact (consume_writes_the_response_once (H:=example_collaborators)
           [literal_route "/a" 1 10 ANY] (example_client "GET /nowhere") []
           12 "GET /nowhere" (example_request GET "/nowhere") _ _
           eq_refl eq_refl eq_refl eq_refl).
Defined.

(** X8: a request that is read and parsed but matched by no route is
    answered: [consume] calls no handler and writes the serialised
    not-found response, once. *)
Theorem consume_answers_unmatched_request_with_not_found `{Collaborators}
    (routes : list http_route.t) (client : tcp_stream) (tr : trace)
    (read : Z) (req_buffer : string) (request : http_request.t) :
  receive client max_size = (read, req_buffer) → (0 < read)%Z →
  parse new_request req_buffer read = Ret (true, request) →
  (∀ r, r ∈ routes → ¬ matched r request) →
  (http_consumer.consume routes client tr).1 = Ret tt
  ∧ handler_calls (http_consumer.consume routes client tr).2
    = handler_calls tr
  ∧ bytes_sent (http_consumer.consume routes client tr).2
    = bytes_sent tr ++ [response_str (not_found new_response)].
Proof.
  intros Hrecv Hread Hparse Hnone.
  pose proof (route_none routes request new_response [] Hnone) as Hroute.
  rewrite (consume_parsed _ _ _ _ _ _ _ _ Hrecv Hread Hparse Hroute).
  cbn [reply fst snd]. split; [done|].
  rewrite !handler_calls_app, !bytes_sent_app.
  destruct (bool_decide _); simpl; by rewrite ?app_nil_r.
Qed.

Lemma consume_answers_unmatched_request_with_not_found_witness :
  let client := example_client "GET /nowhere" in
  let routes := [literal_route "/a" 1 10 ANY] in
  let consumed :=
    http_consumer.consume (H:=example_collaborators) routes client [] in
  consumed.1 = Ret tt
  ∧ handler_calls consumed.2 = handler_calls []
  ∧ bytes_sent consumed.2
    = bytes_sent []
      ++ [response_str (Collaborators:=example_collaborators)
            (not_found (Collaborators:=example_collaborators)
               (new_response (Collaborators:=example_collaborators)))].
Proof.
  apply (consume_answers_unmatched_request_with_not_found
           (H:=example_collaborators)
           [literal_route "/a" 1 10 ANY] (example_client "GET /nowhere") []
           12 "GET /nowhere" (example_request GET "/nowhere")
           eq_refl eq_refl eq_refl).
  intros r Hr.
  repeat (apply elem_of_cons in Hr as [-> | Hr]; [by vm_compute|]).
  by apply elem_of_nil in Hr.
Defined.

(** X9: a request that is read and parsed is answered by the first route
    in registration order that matches it: [consume] calls that route's
    handler, once, with the request as the match left it and a fresh
    response, and, the handler having returned, writes what the handler
    made of the response, serialised, once. *)
Theorem consume_answers_with_first_matching_handler `{Collaborators}
    (routes : list http_route.t) (client : tcp_stream) (tr : trace)
    (read : Z) (req_buffer : string) (request : http_request.t) (k : nat)
    (rk : http_route.t) (req' : http_request.t) (resp' : http_response.t) :
  receive client max_size = (read, req_buffer) → (0 < read)%Z →
  parse new_request req_buffer read = Ret (true, request) →
  routes !! k = Some rk → matched rk request →
  (∀ k' r', k' < k → routes !! k' = Some r' → ¬ matched r' request) →
  invoke (http_route.controller rk) (http_route.handler rk)
    (http_route.matches rk request).2 new_response = Ret (req', resp') →
  http_consumer.consume routes client tr
  = (Ret tt,
     tr ++ [connection_line client; Receive max_size read; read_line read;
            matched_line rk (http_route.matches rk request).2;
            Call (http_route.controller rk) (http_route.handler rk)
              (http_route.matches rk request).2]
        ++ (reply client (Ret (req', resp'))).2)
  ∧ handler_calls (http_consumer.consume routes client tr).2
    = handler_calls tr
      ++ [(http_route.controller rk, http_route.handler rk)]
  ∧ bytes_sent (http_consumer.consume routes client tr).2
    = bytes_sent tr ++ [response_str resp'].
Proof.
  intros Hrecv Hread Hparse Hk Hm Hfirst Hinv.
  pose proof (route_at_first_match routes request new_response [] k rk
                Hk Hm Hfirst) as Hroute.
  unfold dispatch_to in Hroute. rewrite Hinv in Hroute.
  rewrite (consume_parsed _ _ _ _ _ _ _ _ Hrecv Hread Hparse Hroute).
  cbn [reply fst snd]. split; [done|].
  rewrite !handler_calls_app, !bytes_sent_app.
  destruct (bool_decide _); simpl; by rewrite ?app_nil_r.
Qed.

Lemma consume_answers_with_first_matching_handler_witness :
  let client := example_client "GET /a" in
  let first := literal_route "/a" 1 10 ANY in
  let routes := [literal_route "/b" 3 30 ANY; first;
                 literal_route "/a" 2 20 GET] in
  let request := example_request GET "/a" in
  let resp' := http_response.Build 200 ∅ "/a" in
  let consumed :=
    http_consumer.consume (H:=example_collaborators) routes client [] in
  consumed
  = (Ret tt,
     [] ++ [connection_line client; Receive 1024 6; read_line 6;
            matched_line (H:=example_collaborators) first
              (http_route.matches first request).2;
            Call 1 10 (http_route.matches first request).2]
        ++ (reply (H:=example_collaborators) client
              (Ret (request, resp'))).2)
  ∧ handler_calls consumed.2 = handler_calls [] ++ [(1, 10)]
  ∧ bytes_sent consumed.2
    = bytes_sent []
      ++ [response_str (Collaborators:=example_collaborators) resp'].
Proof.
  apply (consume_answers_with_first_matching_handler
           (H:=example_collaborators)
           [literal_route "/b" 3 30 ANY; literal_route "/a" 1 10 ANY;
            literal_route "/a" 2 20 GET]
           (example_client "GET /a") [] 6 "GET /a"
           (example_request GET "/a") 1 (literal_route "/a" 1 10 ANY)
           (example_request GET "/a") (http_response.Build 200 ∅ "/a")
           eq_refl eq_refl eq_refl eq_refl eq_refl);
    [|reflexivity].
  intros k' r' Hlt Hr'.
  destruct k' as [|k']; [|lia]. injection Hr' as <-. by vm_compute.
Defined.

(** X10: [consume] catches [std::regex_error] and nothing else: an
    exception of another kind thrown by the parser leaves [consume], after
    the connection line, the read and the line that reports it; no
    diagnostic is logged for it, no handler is called and nothing is
    written to the connection. *)
Theorem consume_lets_other_exceptions_escape `{Collaborators}
    (routes : list http_route.t) (client : tcp_stream) (tr : trace)
    (read : Z) (req_buffer what : string) :
  receive client max_size = (read, req_buffer) → (0 < read)%Z →
  parse new_request req_buffer read = Throw (other_exception what) →
  http_consumer.consume routes client tr
  = (Throw (other_exception what),
     tr ++ [connection_line client; Receive max_size read; read_line read])
  ∧ handler_calls (http_consumer.consume routes client tr).2
    = handler_calls tr
  ∧ bytes_sent (http_consumer.consume routes client tr).2 = bytes_sent tr.
Proof.
  intros Hrecv Hread Hparse.
  assert (http_consumer.consume routes client tr
          = (Throw (other_exception what),
             tr ++ [connection_line client; Receive max_size read;
                    read_line read])) as ->.
  { by eapply consume_parse_escapes. }
  split; [done|]. cbn [snd].
  rewrite handler_calls_app, bytes_sent_app. simpl.
  by rewrite !app_nil_r.
Qed.

Lemma consume_lets_other_exceptions_escape_witness :
  let client := example_client "GET /a" in
  let consumed :=
    http_consumer.consume (H:=failing_collaborators)
      [literal_route "/a" 1 10 ANY] client [] in
  consumed
  = (Throw (other_exception "std::bad_alloc"),
     [] ++ [connection_line client; Receive 1024 6; read_line 6])
  ∧ handler_calls consumed.2 = handler_calls []
  ∧ bytes_sent consumed.2 = bytes_sent [].
Proof.
  exact (consume_lets_other_exceptions_escape (H:=failing_collaborators)
           [literal_route "/a" 1 10 ANY] (example_client "GET /a") [] 6
           "GET /a" "std::bad_alloc" eq_refl eq_refl eq_refl).
Defined.

(** X11: whatever the connection, the parser and the table do, [consume]
    reads from the connection exactly once, asking for at most
    [max_size] bytes, calls at most one handler and writes at most once;
    it writes only when the read returned a positive count and the parser
    accepted the bytes. *)
Theorem consume_reads_once_and_replies_at_most_once `{Collaborators}
    (routes : list http_route.t) (client : tcp_stream) (tr : trace) :
  ∃ o es,
    http_consumer.consume routes client tr = (o, tr ++ es)
    ∧ reads es = [(max_size, (receive client max_size).1)]
    ∧ length (handler_calls es) ≤ 1
    ∧ length (bytes_sent es) ≤ 1
    ∧ (bytes_sent es ≠ [] →
       (0 < (receive client max_size).1)%Z
       ∧ ∃ request,
           parse new_request (receive client max_size).2
             (receive client max_size).1 = Ret (true, request)).
Proof.
  destruct (receive client max_size) as [read req_buffer] eqn:Hrecv. simpl.
  destruct (Z_le_gt_dec read 0) as [Hread | Hread].
  - eexists _, _.
    rewrite (consume_read_failed routes client tr read req_buffer) by done.
    split; [done|]. simpl. split_and!; [done | lia | lia | done].
  - apply Z.gt_lt in Hread.
    assert (∀ o',
              http_consumer.consume routes client tr
              = (o', tr ++ [connection_line client; Receive max_size read;
                            read_line read]) →
              ∃ o es,
                http_consumer.consume routes client tr = (o, tr ++ es)
                ∧ reads es = [(max_size, read)]
                ∧ length (handler_calls es) ≤ 1
                ∧ length (bytes_sent es) ≤ 1
                ∧ (bytes_sent es ≠ [] →
                   (0 < read)%Z
                   ∧ ∃ request,
                       parse new_request req_buffer read
                       = Ret (true, request))) as Hquiet.
    { intros o' ->. eexists _, _. split; [done|]. simpl.
      split_and!; [done | lia | lia | done]. }
    destruct (parse new_request req_buffer read)
      as [[[] request] | [code what | what] | |] eqn:Hparse.
    + destruct (route_events routes request new_response [])
        as (o & es & Hroute & Hsent & Hreads & Hcalls).
      rewrite app_nil_l in Hroute.
      rewrite (consume_parsed _ _ _ _ _ _ _ _ Hrecv Hread Hparse Hroute).
      eexists _, _. split; [done|].
      rewrite !reads_app, !handler_calls_app, !bytes_sent_app, Hsent, Hreads.
      destruct o as [[req' resp]|e| |]; cbn [reply fst snd];
        try destruct (bool_decide _); simpl;
        rewrite ?app_nil_r; (split_and!; [done | lia | lia |]);
        intros _; (split; [done | by exists request]).
    + destruct (http_consumer.c_string max_size req_buffer) as [text|]
        eqn:Htext.
      * eexists _, _.
        rewrite (consume_parse_failed routes client tr read req_buffer
                   (parse_failed_line text) Hrecv Hread
                   (parse_returns_false _ _ _ _ Hparse Htext)).
        split; [done|]. simpl. split_and!; [done | lia | lia | done].
      * eapply Hquiet.
        by eapply consume_parse_failed_unterminated.
    + eexists _, _.
      rewrite (consume_parse_failed routes client tr read req_buffer
                 (parse_exception_line code what) Hrecv Hread
                 (parse_throws _ _ _ _ Hparse)).
      split; [done|]. simpl. split_and!; [done | lia | lia | done].
    + apply (Hquiet (Throw (other_exception what))).
      by eapply consume_parse_escapes.
    + apply (Hquiet Diverge). by eapply consume_parse_escapes.
    + apply (Hquiet Undefined). by eapply consume_parse_escapes.
Qed.

(** X13: which handler [route] calls depends on the request only through
    its method and its path: two requests that agree on both get the same
    handler (or both none), whatever their headers, bodies and parameters
    are, whatever response object is passed, and whatever was logged
    before. *)
Theorem routing_looks_at_method_and_path_only `{Collaborators}
    (routes : list http_route.t) (req req' : http_request.t)
    (resp resp' : http_response.t) :
  http_request.method req' = http_request.method req →
  http_request.path req' = http_request.path req →
  (∀ r, matched r req' ↔ matched r req)
  ∧ handler_calls (http_consumer.route routes req' resp' []).2
    = handler_calls (http_consumer.route routes req resp []).2.
Proof.
  intros Hmeth Hpath. split.
  - intros r. unfold matched.
    by rewrite (matches_answer_inputs r req req' Hmeth Hpath).
  - by rewrite (route_calls_inputs routes req req' resp resp' [] []).
Qed.

Lemma routing_looks_at_method_and_path_only_witness :
  let routes := [literal_route "/a" 1 10 ANY] in
  let req := example_request GET "/a" in
  let req' := http_request.Build GET "/a" {["Host" := "h"]} "body"
                {["page" := "3"]} in
  (∀ r, matched r req' ↔ matched r req)
  ∧ handler_calls
      (http_consumer.route (H:=example_collaborators) routes req'
         (http_response.Build 500 ∅ "x") []).2
    = handler_calls
        (http_consumer.route (H:=example_collaborators) routes req
           example_response []).2.
Proof.
  exact (routing_looks_at_method_and_path_only (H:=example_collaborators)
           [literal_route "/a" 1 10 ANY] (example_request GET "/a")
           (http_request.Build GET "/a" {["Host" := "h"]} "body"
              {["page" := "3"]})
           (http_response.Build 500 ∅ "x") example_response
           eq_refl eq_refl).
Defined.

(** X14: the method is checked before the path: a request whose method no
    route of the table accepts (every route names a method of its own,
    another one) is answered with not-found and reaches no handler, even
    when its path is a path some route was registered for. *)
Theorem unaccepted_method_is_not_found `{Collaborators}
    (routes : list http_route.t) (req : http_request.t)
    (resp : http_response.t) (tr : trace) :
  (∀ r, r ∈ routes →
        http_route.method r ≠ ANY
        ∧ http_route.method r ≠ http_request.method req) →
  http_consumer.route routes req resp tr
  = (Ret (req, not_found resp), tr ++ [no_route_line req])
  ∧ handler_calls (http_consumer.route routes req resp tr).2
    = handler_calls tr.
Proof.
  intros Hmethods.
  assert (∀ r, r ∈ routes → ¬ matched r req) as Hnone.
  { intros r Hr Hm. destruct (Hmethods r Hr) as [Hany Hne].
    apply matched_method_ok in Hm as [? | ?]; congruence. }
  rewrite route_none by done. split; [done|]. cbn [snd].
  rewrite handler_calls_app. simpl. by rewrite app_nil_r.
Qed.

Lemma unaccepted_method_is_not_found_witness :
  let routes := [literal_route "/a" 1 10 GET] in
  let req := example_request POST "/a" in
  http_consumer.route (H:=example_collaborators) routes req example_response []
  = (Ret (req, not_found (Collaborators:=example_collaborators)
                 example_response),
     [] ++ [no_route_line (H:=example_collaborators) req])
  ∧ handler_calls
      (http_consumer.route (H:=example_collaborators) routes req
         example_response []).2
    = handler_calls [].
Proof.
  apply (unaccepted_method_is_not_found (H:=example_collaborators)
           [literal_route "/a" 1 10 GET] (example_request POST "/a")
           example_response []).
  intros r Hr.
  repeat (apply elem_of_cons in Hr as [-> | Hr]; [by vm_compute|]).
  by apply elem_of_nil in Hr.
Defined.

(** X15: [consume] logs the request buffer as a C string, and the buffer
    has no room for the byte that ends one: when the peer fills all
    [max_size] bytes with nonzero bytes and the parser returns false, what
    the log call reads goes past the end of the array, and nothing of what
    [consume] or the worker does next is defined: no handler has been
    called and nothing written at that point.  With fewer bytes written,
    or a zero byte among them, the buffer is logged up to that byte and
    [consume] returns. *)
Theorem consume_logs_a_full_buffer_past_its_end `{Collaborators}
    (routes : list http_route.t) (client : tcp_stream)
    (queue : list tcp_stream) (tr : trace) (read : Z)
    (req_buffer : string) (request : http_request.t) :
  receive client max_size = (read, req_buffer) → (0 < read)%Z →
  parse new_request req_buffer read = Ret (false, request) →
  (http_consumer.c_string max_size req_buffer = None ↔
   max_size ≤ String.length req_buffer
   ∧ str.until_nul (str.take max_size req_buffer) = None)
  ∧ (http_consumer.c_string max_size req_buffer = None →
     http_consumer.consume routes client tr
     = (Undefined, tr ++ [connection_line client; Receive max_size read;
                          read_line read])
     ∧ http_consumer.run routes (client :: queue) tr
       = (Undefined, tr ++ [connection_line client; Receive max_size read;
                            read_line read]))
  ∧ (∀ text,
       http_consumer.c_string max_size req_buffer = Some text →
       http_consumer.consume routes client tr
       = (Ret tt, tr ++ [connection_line client; Receive max_size read;
                         read_line read; parse_failed_line text])).
Proof.
  intros Hrecv Hread Hparse. split_and!.
  - unfold http_consumer.c_string.
    destruct (str.until_nul _) as [text|] eqn:Hnul.
    + split; [done | by intros [_ ?]].
    + destruct (String.length _ <? max_size) eqn:Hlen.
      * apply Nat.ltb_lt in Hlen. split; [done|]. intros [Hfull _].
        rewrite str_length_take in Hlen by done. lia.
      * apply Nat.ltb_ge in Hlen. split; [|done]. intros _. split; [|done].
        destruct (decide (max_size ≤ String.length req_buffer)) as [|Hshort];
          [done|].
        assert (∀ n s, String.length (str.take n s) ≤ String.length s)
          as Htake.
        { clear. induction n as [|n IH]; intros [|c s]; simpl; try lia.
          specialize (IH s). lia. }
        specialize (Htake max_size req_buffer). lia.
  - intros Htext.
    pose proof (consume_parse_failed_unterminated routes client tr read
                  req_buffer request Hrecv Hread Hparse Htext) as Hc.
    split; [done|]. simpl. step_M. by rewrite Hc.
  - intros text Htext.
    apply (consume_parse_failed routes client tr read req_buffer
             (parse_failed_line text) Hrecv Hread).
    by eapply parse_returns_false.
Qed.

Lemma consume_logs_a_full_buffer_past_its_end_witness :
  let client := example_client "POST /ab" in
  let next := example_client "GET /a" in
  let routes := [literal_route "/a" 1 10 ANY] in
  http_consumer.c_string 8 "POST /ab" = None
  ∧ http_consumer.c_string 8 "POST /a" = Some "POST /a"
  ∧ (http_consumer.c_string
       (max_size (Collaborators:=faulty_collaborators)) "POST /ab" = None ↔
     max_size (Collaborators:=faulty_collaborators)
     ≤ String.length "POST /ab"
     ∧ str.until_nul
         (str.take (max_size (Collaborators:=faulty_collaborators))
            "POST /ab") = None)
  ∧ (http_consumer.c_string
       (max_size (Collaborators:=faulty_collaborators)) "POST /ab" = None →
     http_consumer.consume (H:=faulty_collaborators) routes client []
     = (Undefined, [] ++ [connection_line client; Receive 8 8; read_line 8])
     ∧ http_consumer.run (H:=faulty_collaborators) routes [client; next] []
       = (Undefined,
          [] ++ [connection_line client; Receive 8 8; read_line 8]))
  ∧ (∀ text,
       http_consumer.c_string
         (max_size (Collaborators:=faulty_collaborators)) "POST /ab"
       = Some text →
       http_consumer.consume (H:=faulty_collaborators) routes client []
       = (Ret tt, [] ++ [connection_line client; Receive 8 8; read_line 8;
                         parse_failed_line text])).
Proof.
  split; [reflexivity|]. split; [reflexivity|].
  exact (consume_logs_a_full_buffer_past_its_end (H:=faulty_collaborators)
           [literal_route "/a" 1 10 ANY] (example_client "POST /ab")
           [example_client "GET /a"] [] 8 "POST /ab"
           (example_request ANY "") eq_refl eq_refl eq_refl).
Defined.

(** X16: the call of the handler is not guarded: when the handler of the
    route that matched throws, the exception leaves [route] and [consume]
    (whatever its kind, [std::regex_error] included: the handler runs
    outside the [try] block), after the handler was called once; nothing
    is written to the connection and no error line is logged. *)
Theorem consume_passes_on_what_the_handler_throws `{Collaborators}
    (routes : list http_route.t) (client : tcp_stream) (tr : trace)
    (read : Z) (req_buffer : string) (request : http_request.t) (k : nat)
    (rk : http_route.t) (e : exn) :
  receive client max_size = (read, req_buffer) → (0 < read)%Z →
  parse new_request req_buffer read = Ret (true, request) →
  routes !! k = Some rk → matched rk request →
  (∀ k' r', k' < k → routes !! k' = Some r' → ¬ matched r' request) →
  invoke (http_route.controller rk) (http_route.handler rk)
    (http_route.matches rk request).2 new_response = Throw e →
  http_consumer.route routes request new_response tr
  = (Throw e,
     tr ++ [matched_line rk (http_route.matches rk request).2;
            Call (http_route.controller rk) (http_route.handler rk)
              (http_route.matches rk request).2])
  ∧ http_consumer.consume routes client tr
    = (Throw e,
       tr ++ [connection_line client; Receive max_size read; read_line read;
              matched_line rk (http_route.matches rk request).2;
              Call (http_route.controller rk) (http_route.handler rk)
                (http_route.matches rk request).2])
  ∧ handler_calls (http_consumer.consume routes client tr).2
    = handler_calls tr
      ++ [(http_route.controller rk, http_route.handler rk)]
  ∧ bytes_sent (http_consumer.consume routes client tr).2 = bytes_sent tr.
Proof.
  intros Hrecv Hread Hparse Hk Hm Hfirst Hinv.
  assert (∀ tr0,
            http_consumer.route routes request new_response tr0
            = (Throw e,
               tr0 ++ [matched_line rk (http_route.matches rk request).2;
                       Call (http_route.controller rk)
                         (http_route.handler rk)
                         (http_route.matches rk request).2])) as Hroute.
  { intros tr0.
    rewrite (route_at_first_match routes request new_response tr0 k rk)
      by done.
    unfold dispatch_to. by rewrite Hinv. }
  split; [apply Hroute|].
  rewrite (consume_parsed _ _ _ _ _ _ _ _ Hrecv Hread Hparse (Hroute [])).
  cbn [reply fst snd]. rewrite !app_nil_r. split; [done|].
  rewrite !handler_calls_app, !bytes_sent_app. simpl.
  by rewrite !app_nil_r.
Qed.

Lemma consume_passes_on_what_the_handler_throws_witness :
  let client := example_client "GET /a" in
  let broken := literal_route "/a" 1 0 ANY in
  let routes := [broken; literal_route "/a" 2 20 ANY] in
  let request := example_request GET "/a" in
  let e := other_exception "std::runtime_error" in
  http_consumer.route (H:=faulty_collaborators) routes request
    example_response []
  = (Throw e, [] ++ [matched_line (H:=faulty_collaborators) broken request;
                     Call 1 0 request])
  ∧ http_consumer.consume (H:=faulty_collaborators) routes client []
    = (Throw e,
       [] ++ [connection_line client; Receive 8 6; read_line 6;
              matched_line (H:=faulty_collaborators) broken request;
              Call 1 0 request])
  ∧ handler_calls
      (http_consumer.consume (H:=faulty_collaborators) routes client []).2
    = handler_calls [] ++ [(1, 0)]
  ∧ bytes_sent
      (http_consumer.consume (H:=faulty_collaborators) routes client []).2
    = bytes_sent [].
Proof.
  apply (consume_passes_on_what_the_handler_throws (H:=faulty_collaborators)
           [literal_route "/a" 1 0 ANY; literal_route "/a" 2 20 ANY]
           (example_client "GET /a") [] 6 "GET /a"
           (example_request GET "/a") 0 (literal_route "/a" 1 0 ANY)
           (other_exception "std::runtime_error")
           eq_refl eq_refl eq_refl eq_refl eq_refl);
    [|reflexivity].
  intros k' r' Hlt. lia.
Defined.
